(** * Retrieve and rerank: a model of the evaluation notebook

    The notebook [retrieve-and-rerank.ipynb] indexes a corpus, retrieves
    candidates with BM25 through batched multi-search requests, rescores them
    with a cross-encoder and aggregates nDCG@10.  The Python functions are
    embedded below as Rocq functions that keep their names; the external
    services (the search backend, the reranking model) are arguments of the
    functions that call them. *)

From Stdlib Require Import String Ascii Bool Arith ZArith QArith Lia.
From Stdlib Require Import List.
From Stdlib Require Import Permutation Sorted.
From Stdlib Require Import Reals Qreals Lra.
From Stdlib Require Floats.
Import ListNotations.

Local Open Scope string_scope.
Local Open Scope list_scope.
Local Open Scope nat_scope.

(* ================================================================= *)
(** ** Python dictionaries *)

(** A [dict] with string keys: an association list in insertion order, as
    Python iterates it.  [set] is [d[k] = v]: an existing key keeps its place
    and takes the new value, a new key goes to the end. *)
Module Dict.

Definition t (V : Type) : Type := list (string * V).

Definition empty {V : Type} : t V := [].

Fixpoint get {V : Type} (k : string) (d : t V) : option V :=
  match d with
  | [] => None
  | (k', v) :: d' => if String.eqb k k' then Some v else get k d'
  end.

(** [k in d] *)
Definition contains {V : Type} (k : string) (d : t V) : bool :=
  match get k d with Some _ => true | None => false end.

Fixpoint set {V : Type} (k : string) (v : V) (d : t V) : t V :=
  match d with
  | [] => [(k, v)]
  | (k', v') :: d' =>
      if String.eqb k k' then (k, v) :: d' else (k', v') :: set k v d'
  end.

Definition keys {V : Type} (d : t V) : list string := map fst d.

Definition values {V : Type} (d : t V) : list V := map snd d.

Definition items {V : Type} (d : t V) : list (string * V) := d.

Definition len {V : Type} (d : t V) : nat := length d.

(** [d.update(other)]: every pair of [other], in order, is set in [d]. *)
Definition update {V : Type} (d : t V) (other : list (string * V)) : t V :=
  fold_left (fun acc kv => set (fst kv) (snd kv) acc) other d.

(** A dict comprehension [{k: v for ...}] over the pairs [kvs]. *)
Definition of_items {V : Type} (kvs : list (string * V)) : t V :=
  update empty kvs.

End Dict.

(* ================================================================= *)
(** ** Dataset rows *)

(** A row of the queries dataset: [{"_id": ..., "text": ...}]. *)
Module Query.
Record t : Type := { _id : string; text : string }.
End Query.

(** A row of the corpus dataset: [{"_id": ..., "title": ..., "text": ...}]. *)
Module Doc.
Record t : Type := { _id : string; title : string; text : string }.
End Doc.

(** A row of the raw judgments: [{"query-id", "corpus-id", "score"}]. *)
Module Qrel.
Record t : Type := { query_id : string; corpus_id : string; score : Z }.
End Qrel.

(* ================================================================= *)
(** ** The search backend as the notebook sees it *)

Module ES.

(** The body built by [generate_request]. *)
Record multi_match : Type := {
  mm_query : string;
  mm_type : string;
  mm_fields : list string;
  mm_tie_breaker : Q
}.

Record search_body : Type := {
  _source : bool;
  query : multi_match;
  size : Z
}.

(** An element of the [searches] list: the empty header [{}] or a body. *)
Inductive search : Type :=
| Header
| Body (b : search_body).

Record msearch_call : Type := {
  searches : list search;
  index : string;
  search_type : string
}.

Record hit : Type := { hit_id : string; hit_score : Q }.

(** One item of [es_response["responses"]]: either it carries
    [resp["hits"]["hits"]], or it has no ["hits"] key (an error item), so that
    reading it raises [KeyError]. *)
Inductive response : Type :=
| Hits (hits : list hit)
| NoHits.

(** The client.  [msearch n call] is the outcome of the [n]-th multi-search
    request made through it (counting from 0): [inl e] when the request raises
    an exception whose [str] is [e], [inr responses] otherwise. *)
Record Elasticsearch : Type := {
  msearch : nat -> msearch_call -> string + list response
}.

End ES.

Import ES.

(** What a run leaves behind besides its return value: the multi-search
    requests sent, oldest first, and the lines printed. *)
Record world : Type := {
  msearch_log : list msearch_call;
  stdout : list string
}.

Definition world0 : world := {| msearch_log := []; stdout := [] |}.

Definition print (line : string) (w : world) : world :=
  {| msearch_log := msearch_log w; stdout := stdout w ++ [line] |}.

Definition sent (call : msearch_call) (w : world) : world :=
  {| msearch_log := msearch_log w ++ [call]; stdout := stdout w |}.

(** A ranking result: query id to (document id to score).  A score is a
    finite binary64 number, hence a rational; scores are only stored and
    compared. *)
Definition scores : Type := Dict.t Q.
Definition ranking : Type := Dict.t scores.

(* ================================================================= *)
(** ** [retrieve] *)

Definition generate_request (size : Z) (query_text : string) : search_body :=
  {| _source := false;
     query := {| mm_query := query_text;
                 mm_type := "best_fields";
                 mm_fields := ["title"; "txt"];
                 mm_tie_breaker := 1 # 2 |};
     size := size |}.

(** [{hit["_id"]: hit["_score"] for hit in resp["hits"]["hits"]}] *)
Definition hits_dict (hits : list hit) : scores :=
  Dict.of_items (map (fun h => (hit_id h, hit_score h)) hits).

(** The [for qid, resp in zip(...)] loop of [retrieve_batch]: entries are
    written one at a time, and a response item without hits stops the loop
    with the [KeyError] that the enclosing [try] catches. *)
Fixpoint fill_batch_dict (pairs : list (string * response)) (batch_dict : ranking)
  : ranking * option string :=
  match pairs with
  | [] => (batch_dict, None)
  | (qid, Hits hits) :: rest =>
      fill_batch_dict rest (Dict.set qid (hits_dict hits) batch_dict)
  | (_, NoHits) :: _ => (batch_dict, Some "'hits'")
  end.

Definition retrieve_batch (es_client : Elasticsearch) (index_name : string)
  (query_ids : list string) (es_requests : list search) (w : world)
  : ranking * world :=
  let call := {| searches := es_requests;
                 index := index_name;
                 search_type := "dfs_query_then_fetch" |} in
  let w1 := sent call w in
  match msearch es_client (length (msearch_log w)) call with
  | inl e => (Dict.empty, print e w1)
  | inr responses =>
      match fill_batch_dict (combine query_ids responses) Dict.empty with
      | (batch_dict, None) => (batch_dict, w1)
      | (batch_dict, Some e) => (batch_dict, print e w1)
      end
  end.

(** The state of the [for query in queries] loop. *)
Record loop_state : Type := {
  qids : list string;
  requests : list search;
  es_responses : ranking;
  env : world
}.

Fixpoint retrieve_loop (es_client : Elasticsearch) (index_name : string)
  (size batch_size : Z) (queries : list Query.t) (st : loop_state) : loop_state :=
  match queries with
  | [] => st
  | query :: rest =>
      let qids' := qids st ++ [Query._id query] in
      let requests' :=
        (requests st ++ [Header]) ++ [Body (generate_request size (Query.text query))] in
      if (Z.of_nat (length qids') =? batch_size)%Z then
        let (batch_dict, w') :=
          retrieve_batch es_client index_name qids' requests' (env st) in
        retrieve_loop es_client index_name size batch_size rest
          {| qids := []; requests := [];
             es_responses := Dict.update (es_responses st) (Dict.items batch_dict);
             env := w' |}
      else
        retrieve_loop es_client index_name size batch_size rest
          {| qids := qids'; requests := requests';
             es_responses := es_responses st; env := env st |}
  end.

Definition retrieve (queries : list Query.t) (es_client : Elasticsearch)
  (index_name : string) (size batch_size : Z) : ranking * world :=
  let st := retrieve_loop es_client index_name size batch_size queries
              {| qids := []; requests := []; es_responses := Dict.empty;
                 env := world0 |} in
  if 0 <? length (qids st) then
    let (batch_dict, w') :=
      retrieve_batch es_client index_name (qids st) (requests st) (env st) in
    (Dict.update (es_responses st) (Dict.items batch_dict), w')
  else (es_responses st, env st).

(** The consecutive groups in which [retrieve] sends its queries: [cur] holds
    the queries already collected for the group being filled.  A group is
    closed as soon as its length equals [batch_size]; what is left at the end
    forms a last, shorter group. *)
Fixpoint batches_from (batch_size : Z) (cur queries : list Query.t)
  : list (list Query.t) :=
  match queries with
  | [] => match cur with [] => [] | _ :: _ => [cur] end
  | query :: rest =>
      let cur' := cur ++ [query] in
      if (Z.of_nat (length cur') =? batch_size)%Z
      then cur' :: batches_from batch_size [] rest
      else batches_from batch_size cur' rest
  end.

Definition batches (batch_size : Z) (queries : list Query.t) : list (list Query.t) :=
  batches_from batch_size [] queries.

(** The [searches] list built for a group of queries. *)
Definition requests_of (size : Z) (batch : list Query.t) : list search :=
  flat_map (fun query => [Header; Body (generate_request size (Query.text query))])
           batch.

Definition call_of (index_name : string) (size : Z) (batch : list Query.t)
  : msearch_call :=
  {| searches := requests_of size batch;
     index := index_name;
     search_type := "dfs_query_then_fetch" |}.

(** The bodies of a [searches] list, headers dropped. *)
Fixpoint bodies (l : list search) : list search_body :=
  match l with
  | [] => []
  | Header :: l' => bodies l'
  | Body b :: l' => b :: bodies l'
  end.

(** What one group gives when its request is the [n]-th one sent: the mapping
    [retrieve_batch] returns for it, and the line it prints, if any. *)
Definition batch_outcome (es_client : Elasticsearch) (index_name : string)
  (size : Z) (n : nat) (batch : list Query.t) : ranking * option string :=
  match msearch es_client n (call_of index_name size batch) with
  | inl e => (Dict.empty, Some e)
  | inr responses =>
      fill_batch_dict (combine (map Query._id batch) responses) Dict.empty
  end.

Fixpoint outcomes_from (es_client : Elasticsearch) (index_name : string)
  (size : Z) (n : nat) (groups : list (list Query.t))
  : list (ranking * option string) :=
  match groups with
  | [] => []
  | batch :: rest =>
      batch_outcome es_client index_name size n batch
      :: outcomes_from es_client index_name size (S n) rest
  end.

Definition printed (outcome : ranking * option string) : list string :=
  match snd outcome with
  | Some e => [e]
  | None => []
  end.

(** All the per-group mappings merged in order, as [es_responses.update]
    does. *)
Definition merge (acc : ranking) (dicts : list ranking) : ranking :=
  fold_left (fun acc d => Dict.update acc (Dict.items d)) dicts acc.

(** The state a run reaches after its groups [groups], started from the
    merged mapping [acc] and the world [w]. *)
Definition after_groups (es_client : Elasticsearch) (index_name : string)
  (size : Z) (groups : list (list Query.t)) (acc : ranking) (w : world)
  : ranking * world :=
  let outs := outcomes_from es_client index_name size
                            (length (msearch_log w)) groups in
  (merge acc (map fst outs),
   {| msearch_log := msearch_log w ++ map (call_of index_name size) groups;
      stdout := stdout w ++ flat_map printed outs |}).

(** *** Conditions on the backend

    The [n]-th request is answered in full: no exception, one item per
    search, every item with hits. *)
Definition answered (es_client : Elasticsearch) (n : nat) (call : msearch_call)
  : Prop :=
  exists responses,
    msearch es_client n call = inr responses
    /\ length responses = length (bodies (searches call))
    /\ Forall (fun r => exists hits, r = Hits hits) responses.

(** Every request of the log was answered in full by the client. *)
Definition no_batch_request_fails (es_client : Elasticsearch)
  (log : list msearch_call) : Prop :=
  forall n call, nth_error log n = Some call -> answered es_client n call.

(** The backend returns, for each search it answers, at most as many hits as
    the [size] of that search's body asks for. *)
Definition honours_size (es_client : Elasticsearch) (log : list msearch_call)
  : Prop :=
  forall n call responses,
    nth_error log n = Some call ->
    msearch es_client n call = inr responses ->
    forall i b hits,
      nth_error (bodies (searches call)) i = Some b ->
      nth_error responses i = Some (Hits hits) ->
      (Z.of_nat (length hits) <= ES.size b)%Z.

(** The search bodies the retriever writes: a [best_fields] [multi_match]
    over the fields [title] and [txt] with tie breaker 0.5. *)
Definition best_fields_title_txt (b : search_body) : Prop :=
  mm_type (query b) = "best_fields"
  /\ mm_fields (query b) = ["title"; "txt"]
  /\ mm_tie_breaker (query b) = (1 # 2)%Q.

(* ================================================================= *)
(** ** [download_queries_and_qrels] *)

(** [qrels[q["query-id"]][q["corpus-id"]] = int(q["score"])] on a
    [defaultdict(dict)]. *)
Definition add_qrel (qrels : Dict.t (Dict.t Z)) (q : Qrel.t) : Dict.t (Dict.t Z) :=
  let inner := match Dict.get (Qrel.query_id q) qrels with
               | Some d => d
               | None => Dict.empty
               end in
  Dict.set (Qrel.query_id q)
           (Dict.set (Qrel.corpus_id q) (Qrel.score q) inner) qrels.

(** The two datasets that [datasets.load_dataset] returns are the arguments
    [qrels_raw] and [queries_raw]. *)
Definition download_queries_and_qrels (qrels_raw : list Qrel.t)
  (queries_raw : list Query.t) : list Query.t * Dict.t (Dict.t Z) :=
  let qrels := fold_left add_qrel qrels_raw Dict.empty in
  let queries :=
    filter (fun r => Dict.contains (Query._id r) qrels) queries_raw in
  (queries, qrels).

(* ================================================================= *)
(** ** Reranking *)

(** A subscript [d[k]] either yields a value or raises [KeyError]. *)
Inductive result (A : Type) : Type :=
| Ok (a : A)
| KeyError (key : string).
Arguments Ok {A} a.
Arguments KeyError {A} key.

Definition bind {A B : Type} (r : result A) (f : A -> result B) : result B :=
  match r with
  | Ok a => f a
  | KeyError k => KeyError k
  end.

Notation "x <- r ;; k" := (bind r (fun x => k))
  (at level 61, r at next level, right associativity).

Definition getitem {V : Type} (d : Dict.t V) (k : string) : result V :=
  match Dict.get k d with
  | Some v => Ok v
  | None => KeyError k
  end.

(** [reranking_model.predict]: a list of (query, document text) pairs to a
    list of scores. *)
Definition CrossEncoder : Type := list (string * string) -> list Q.

Definition queries_dict (queries : list Query.t) : Dict.t string :=
  Dict.of_items (map (fun q => (Query._id q, Query.text q)) queries).

(** [f"{doc['title']} {doc['text']}"] *)
Definition title_and_text (doc : Doc.t) : string :=
  (Doc.title doc ++ " " ++ Doc.text doc)%string.

Definition corpus_dict (corpus : list Doc.t) : Dict.t string :=
  Dict.of_items (map (fun doc => (Doc._id doc, title_and_text doc)) corpus).


(** [[corpus_dict[doc_id] for doc_id in doc_ids]] *)
Fixpoint doc_texts_of (corpus_dict : Dict.t string) (doc_ids : list string)
  : result (list string) :=
  match doc_ids with
  | [] => Ok []
  | doc_id :: rest =>
      doc_text <- getitem corpus_dict doc_id ;;
      doc_texts <- doc_texts_of corpus_dict rest ;;
      Ok (doc_text :: doc_texts)
  end.

(** The pairs handed to the model for one query. *)
Definition predict_input (query_text : string) (doc_texts : list string)
  : list (string * string) :=
  map (fun doc_text => (query_text, doc_text)) doc_texts.

(** The body of the reranking loop for one [(qid, bm25_res)] item; the
    conversion [float(score)] keeps the value. *)
Definition rerank_query (reranking_model : CrossEncoder)
  (queries_dict corpus_dict : Dict.t string) (qid : string) (bm25_res : scores)
  : result scores :=
  query_text <- getitem queries_dict qid ;;
  let doc_ids := map fst (Dict.items bm25_res) in
  if length doc_ids =? 0 then Ok Dict.empty
  else
    doc_texts <- doc_texts_of corpus_dict doc_ids ;;
    let scores := reranking_model (predict_input query_text doc_texts) in
    Ok (Dict.of_items (combine doc_ids scores)).

Fixpoint rerank_loop (reranking_model : CrossEncoder)
  (queries_dict corpus_dict : Dict.t string)
  (todo : list (string * scores)) (results_after_reranking : ranking)
  : result ranking :=
  match todo with
  | [] => Ok results_after_reranking
  | (qid, bm25_res) :: rest =>
      res <- rerank_query reranking_model queries_dict corpus_dict qid bm25_res ;;
      rerank_loop reranking_model queries_dict corpus_dict rest
                  (Dict.set qid res results_after_reranking)
  end.

Definition results_after_reranking (reranking_model : CrossEncoder)
  (queries : list Query.t) (corpus : list Doc.t) (bm25_responses : ranking)
  : result ranking :=
  rerank_loop reranking_model (queries_dict queries) (corpus_dict corpus)
              (Dict.items bm25_responses) Dict.empty.

(* ================================================================= *)
(** ** Ordering a score map *)

(** [sorted(doc_scores.items(), key=lambda x: x[1], reverse=True)]: a stable
    sort on the score, highest first; equal scores keep the dict's order. *)
Fixpoint insert_desc (x : string * Q) (l : list (string * Q)) : list (string * Q) :=
  match l with
  | [] => [x]
  | y :: l' =>
      if Qle_bool (snd y) (snd x) then x :: y :: l' else y :: insert_desc x l'
  end.

Definition sorted_desc (l : list (string * Q)) : list (string * Q) :=
  fold_right insert_desc [] l.

Definition top_k_doc_ids (top_k : nat) (doc_scores : scores) : list string :=
  map fst (firstn top_k (sorted_desc (Dict.items doc_scores))).

(* ================================================================= *)
(** ** Evaluation *)

Definition log2 (x : R) : R := (ln x / ln 2)%R.

(** The discount of the document at [rank], ranks counted from 1. *)
Definition discount (rank : nat) : R := (/ log2 (INR rank + 1))%R.

Fixpoint dcg_from (rank : nat) (gains : list R) : R :=
  match gains with
  | [] => 0%R
  | g :: gains' => (g * discount rank + dcg_from (S rank) gains')%R
  end.

(** The gain of a document: its judged relevance when positive, 0 when it is
    judged non-relevant or not judged. *)
Definition gain (judged : Dict.t Z) (doc_id : string) : R :=
  match Dict.get doc_id judged with
  | Some rel => if (0 <? rel)%Z then IZR rel else 0%R
  | None => 0%R
  end.

Fixpoint insert_rel (x : Z) (l : list Z) : list Z :=
  match l with
  | [] => [x]
  | y :: l' => if (y <=? x)%Z then x :: y :: l' else y :: insert_rel x l'
  end.

(** The gains of the best possible ranking: the positive judgments, highest
    first, cut at [k]. *)
Definition ideal_gains (k : nat) (judged : Dict.t Z) : list R :=
  map IZR
      (firstn k (fold_right insert_rel []
                   (filter (fun rel => (0 <? rel)%Z) (Dict.values judged)))).

(** Modelled from the spec: [pytrec_eval]'s measure [ndcg_cut_10] is not part
    of the notebook; this is the normalized discounted cumulative gain over the
    top [k] results, the ranking derived by sorting the score map on score
    descending, with the logarithmic (base 2) discount.  A query with no
    relevant judgment scores 0. *)
Definition ndcg_cut (k : nat) (judged : Dict.t Z) (run : scores) : R :=
  let dcg := dcg_from 1 (map (gain judged) (top_k_doc_ids k run)) in
  match ideal_gains k judged with
  | [] => 0%R
  | ideal => (dcg / dcg_from 1 ideal)%R
  end.

(** Modelled from the spec: [RelevanceEvaluator(qrels, {"ndcg_cut_10"}).evaluate]
    is not part of the notebook; it gives, for every query of the ranking
    result that has judgments, the per-query value of the metric. *)
Definition evaluate (qrels : Dict.t (Dict.t Z)) (run : ranking)
  : Dict.t (Dict.t R) :=
  Dict.of_items
    (flat_map (fun item =>
                 match Dict.get (fst item) qrels with
                 | Some judged =>
                     [(fst item, [("ndcg_cut_10", ndcg_cut 10 judged (snd item))])]
                 | None => []
                 end)
              (Dict.items run)).

(** [eval_scores[metric].append(metric_score)] on a [defaultdict(list)].
    The loops do not look at the scores, so their type is left open: the
    measure above is given as a real number, the scores the program holds
    and averages are binary64 numbers. *)
Definition append_score {V : Type} (eval_scores : Dict.t (list V))
  (metric : string) (metric_score : V) : Dict.t (list V) :=
  let so_far := match Dict.get metric eval_scores with
                | Some l => l
                | None => []
                end in
  Dict.set metric (so_far ++ [metric_score]) eval_scores.

(** The aggregation loops over [eval_per_query.items()] and [vals.items()],
    from the accumulator [acc]. *)
Definition aggregate {V : Type} (items : list (string * Dict.t V))
  (acc : Dict.t (list V)) : Dict.t (list V) :=
  fold_left
    (fun acc item =>
       fold_left (fun acc' ms => append_score acc' (fst ms) (snd ms))
                 (Dict.items (snd item)) acc)
    items acc.

Definition eval_scores {V : Type} (eval_per_query : Dict.t (Dict.t V))
  : Dict.t (list V) :=
  aggregate (Dict.items eval_per_query) Dict.empty.

(** The list collected so far for [metric]. *)
Definition so_far {V : Type} (metric : string) (acc : Dict.t (list V)) : list V :=
  match Dict.get metric acc with
  | Some l => l
  | None => []
  end.

(** The per-query scores of [metric], in the order of the queries. *)
Definition scores_of_metric {V : Type} (metric : string)
  (eval_per_query : Dict.t (Dict.t V)) : list V :=
  flat_map
    (fun item =>
       map snd (filter (fun ms => String.eqb metric (fst ms)) (Dict.items (snd item))))
    (Dict.items eval_per_query).

(** Modelled from the spec: [np.mean] is not part of the notebook; it is the
    arithmetic mean, here over the reals (rounding is not modelled). *)
Definition np_mean (l : list R) : R :=
  (fold_left Rplus l 0 / INR (length l))%R.

(** Modelled from the spec: [np.mean] is not part of the notebook.  On the
    metric scores, which are binary64 numbers, the arithmetic mean is computed
    as numpy computes it: the sum by [add.reduce], that is the identity 0 plus
    the pairwise sum of the numbers in list order, divided by the count.  The
    pairwise sum adds fewer than eight numbers one after the other from -0,
    adds up to 128 numbers in eight interleaved running sums that are then
    combined, and splits longer lists in two.  (Which zero the sum starts
    from only shows in the sign of a sum that is zero.) *)
Module Float64.
Import Floats.

Definition t : Type := float.

(** [float(n)] for a count [n]. *)
Definition of_nat (n : nat) : t :=
  PrimFloat.of_uint63 (Uint63.of_Z (Z.of_nat n)).

(** The loop [res += a[i]] from [start]. *)
Definition add_in_order (start : t) (a : list t) : t :=
  fold_left PrimFloat.add a start.

(** The eight running sums of the unrolled loop. *)
Record acc8 : Type := {
  r0 : t; r1 : t; r2 : t; r3 : t; r4 : t; r5 : t; r6 : t; r7 : t
}.

(** Each full block of eight numbers is added, lane by lane, to the eight
    running sums; what is left has fewer than eight numbers. *)
Fixpoint add_blocks (r : acc8) (a : list t) : acc8 * list t :=
  match a with
  | a0 :: a1 :: a2 :: a3 :: a4 :: a5 :: a6 :: a7 :: rest =>
      add_blocks
        {| r0 := PrimFloat.add (r0 r) a0; r1 := PrimFloat.add (r1 r) a1;
           r2 := PrimFloat.add (r2 r) a2; r3 := PrimFloat.add (r3 r) a3;
           r4 := PrimFloat.add (r4 r) a4; r5 := PrimFloat.add (r5 r) a5;
           r6 := PrimFloat.add (r6 r) a6; r7 := PrimFloat.add (r7 r) a7 |}
        rest
  | _ => (r, a)
  end.

(** The sum of at most [PW_BLOCKSIZE] numbers. *)
Definition block_sum (a : list t) : t :=
  match a with
  | a0 :: a1 :: a2 :: a3 :: a4 :: a5 :: a6 :: a7 :: rest =>
      let (r, tail) :=
        add_blocks {| r0 := a0; r1 := a1; r2 := a2; r3 := a3;
                      r4 := a4; r5 := a5; r6 := a6; r7 := a7 |} rest in
      add_in_order
        (PrimFloat.add
           (PrimFloat.add (PrimFloat.add (r0 r) (r1 r))
                          (PrimFloat.add (r2 r) (r3 r)))
           (PrimFloat.add (PrimFloat.add (r4 r) (r5 r))
                          (PrimFloat.add (r6 r) (r7 r))))
        tail
  | _ => add_in_order neg_zero a
  end.

Definition PW_BLOCKSIZE : nat := 128.

(** The recursion halves the list, so a [fuel] of the list's length is never
    used up ([pairwise_sum_fuel] below). *)
Fixpoint pairwise_sum (fuel : nat) (a : list t) : t :=
  let n := length a in
  if n <=? PW_BLOCKSIZE then block_sum a
  else
    match fuel with
    | 0 => block_sum a
    | S fuel' =>
        let n2 := n / 2 - (n / 2) mod 8 in
        PrimFloat.add (pairwise_sum fuel' (firstn n2 a))
                      (pairwise_sum fuel' (skipn n2 a))
    end.

Definition np_sum (a : list t) : t :=
  PrimFloat.add zero (pairwise_sum (length a) a).

Definition np_mean (a : list t) : t :=
  PrimFloat.div (np_sum a) (of_nat (length a)).

(** The rational number a finite binary64 number stands for (0 for an
    infinity or a NaN). *)
Definition to_Q (x : t) : Q :=
  match Prim2SF x with
  | S754_finite s m e =>
      let v := if s then Z.neg m else Z.pos m in
      if (0 <=? e)%Z then inject_Z (v * 2 ^ e)
      else v # Pos.pow 2 (Z.to_pos (- e))
  | _ => 0%Q
  end.

(** The mean of the numbers in exact arithmetic. *)
Definition exact_mean (a : list t) : Q :=
  (fold_right Qplus 0 (map to_Q a) / inject_Z (Z.of_nat (length a)))%Q.

End Float64.

(** What the last loop prints: each metric with the mean of its scores. *)
Definition report (eval_scores : Dict.t (list Float64.t))
  : list (string * Float64.t) :=
  map (fun entry => (fst entry, Float64.np_mean (snd entry)))
      (Dict.items eval_scores).

(* ================================================================= *)
(** ** Indexing *)

(** An action yielded by [get_iterable]. *)
Module Action.
Record t : Type := {
  _id : string;
  _op_type : string;
  refresh : string;
  title : string;
  txt : string
}.
End Action.

(** [zip(corpus["_id"], corpus["title"], corpus["text"])] over the columns of
    the dataset. *)
Definition zip3 (corpus : list Doc.t) : list (string * string * string) :=
  combine (combine (map Doc._id corpus) (map Doc.title corpus))
          (map Doc.text corpus).

Definition get_iterable (corpus : list Doc.t) : list Action.t :=
  map (fun row =>
         match row with
         | (docid, doc_title, doc_txt) =>
             {| Action._id := docid;
                Action._op_type := "index";
                Action.refresh := "wait_for";
                Action.title := doc_title;
                Action.txt := doc_txt |}
         end)
      (zip3 corpus).

(** Modelled from the spec: the search backend is not part of the notebook.
    An index holds documents by id; what has been written becomes queryable
    (and counted) at the next refresh.  The bulk action [index], the one
    [get_iterable] asks for, creates the document or, when the index already
    holds one under that id, replaces it. *)
Module Backend.

Record document : Type := { doc_title : string; doc_txt : string }.

Record es_index : Type := {
  analyzer : string;
  written : Dict.t document;
  queryable : Dict.t document
}.

Definition cluster : Type := Dict.t es_index.

Definition new_index (analyzer : string) : es_index :=
  {| analyzer := analyzer; written := Dict.empty; queryable := Dict.empty |}.

(** [indices.create] with [ignore_status=[400]]: an index that exists is left
    as it is. *)
Definition indices_create (name analyzer : string) (c : cluster) : cluster :=
  if Dict.contains name c then c else Dict.set name (new_index analyzer) c.

Definition write (a : Action.t) (ix : es_index) : es_index :=
  if String.eqb (Action._op_type a) "index" then
    {| analyzer := analyzer ix;
       written := Dict.set (Action._id a)
                    {| doc_title := Action.title a; doc_txt := Action.txt a |}
                    (written ix);
       queryable := queryable ix |}
  else ix.

(** [bulk(client, index, actions)] when every write succeeds. *)
Definition bulk (index_name : string) (actions : list Action.t) (c : cluster)
  : cluster :=
  let ix := match Dict.get index_name c with
            | Some ix => ix
            | None => new_index "standard"
            end in
  Dict.set index_name (fold_left (fun ix a => write a ix) actions ix) c.

Definition indices_refresh (index_name : string) (c : cluster) : cluster :=
  match Dict.get index_name c with
  | Some ix =>
      Dict.set index_name
        {| analyzer := analyzer ix; written := written ix; queryable := written ix |} c
  | None => c
  end.

(** The number of documents a count request on the index reports. *)
Definition count (index_name : string) (c : cluster) : nat :=
  match Dict.get index_name c with
  | Some ix => Dict.len (queryable ix)
  | None => 0
  end.

End Backend.

Definition create_index (c : Backend.cluster) (name : string) (analyzer : string)
  : Backend.cluster :=
  Backend.indices_create name analyzer c.

Definition index_corpus (corpus : list Doc.t) (index_name : string)
  (c : Backend.cluster) : Backend.cluster :=
  Backend.indices_refresh index_name
    (Backend.bulk index_name (get_iterable corpus) c).

(** The document an action of [get_iterable] stores for a corpus row. *)
Definition stored_document (doc : Doc.t) : Backend.document :=
  {| Backend.doc_title := Doc.title doc; Backend.doc_txt := Doc.text doc |}.

(** The documents written to the index [index_name] so far. *)
Definition written_in (index_name : string) (c : Backend.cluster)
  : Dict.t Backend.document :=
  match Dict.get index_name c with
  | Some ix => Backend.written ix
  | None => Dict.empty
  end.

(* ================================================================= *)
(** ** The judge rate *)

Definition TOP_K : nat := 10.

(** [sum(1 for doc_id in top_k_doc_ids if doc_id in qrels[qid])] *)
Definition nr_labeled_docs (judged : Dict.t Z) (top_k_doc_ids : list string) : nat :=
  list_sum (map (fun _ => 1)
                (filter (fun doc_id => Dict.contains doc_id judged) top_k_doc_ids)).

(** The loop over [bm25_responses.items()] (or over the reranked result): a
    query without candidates is skipped before [qrels[qid]] is read; the
    quotient of the two counts is kept as a fraction. *)
Fixpoint judge_rate_loop (top_k : nat) (qrels : Dict.t (Dict.t Z))
  (todo : list (string * scores)) (judge_rate_per_query : list Q)
  : result (list Q) :=
  match todo with
  | [] => Ok judge_rate_per_query
  | (qid, doc_scores) :: rest =>
      let ids := top_k_doc_ids top_k doc_scores in
      if length ids =? 0 then
        judge_rate_loop top_k qrels rest judge_rate_per_query
      else
        judged <- getitem qrels qid ;;
        judge_rate_loop top_k qrels rest
          (judge_rate_per_query
             ++ [Z.of_nat (nr_labeled_docs judged ids) # Pos.of_nat (length ids)])
  end.

Definition judge_rate_per_query (qrels : Dict.t (Dict.t Z)) (responses : ranking)
  : result (list Q) :=
  judge_rate_loop TOP_K qrels (Dict.items responses) [].

(** [np.mean(judge_rate_per_query) * 100.0] *)
Definition judge_rate_percent (rates : list Q) : R :=
  (np_mean (map Q2R rates) * 100)%R.

(** *** Helpers for stating what [retrieve_batch] keeps *)

(** The hits of the response items up to the first one without hits. *)
Fixpoint leading_hits (responses : list response) : list (list hit) :=
  match responses with
  | Hits hits :: rest => hits :: leading_hits rest
  | _ => []
  end.

(** The raw judgment that [qrels] ends up holding for a query and a
    document: the last row written for that pair. *)
Definition last_judgment (qrels_raw : list Qrel.t) (qid doc_id : string)
  : option Qrel.t :=
  find (fun r => String.eqb qid (Qrel.query_id r)
                 && String.eqb doc_id (Qrel.corpus_id r))
       (rev qrels_raw).

(** [qrels[qid][doc_id]] when both keys are there. *)
Definition judged_score (qrels : Dict.t (Dict.t Z)) (qid doc_id : string)
  : option Z :=
  match Dict.get qid qrels with
  | Some judged => Dict.get doc_id judged
  | None => None
  end.

(** The shape of the judgments: no key twice, no query without a judged
    document. *)
Definition qrels_well_formed (qrels : Dict.t (Dict.t Z)) : Prop :=
  NoDup (Dict.keys qrels)
  /\ forall qid judged, In (qid, judged) qrels ->
                        NoDup (Dict.keys judged) /\ judged <> Dict.empty.

(** [a] ranks no lower than [b]. *)
Definition score_ge (a b : string * Q) : Prop := (snd b <= snd a)%Q.

(* ================================================================= *)
(** ** A small run *)

Module Sample.

Definition q1 : Query.t := {| Query._id := "q1"; Query.text := "origin of covid" |}.
Definition q2 : Query.t := {| Query._id := "q2"; Query.text := "masks" |}.
Definition q3 : Query.t := {| Query._id := "q3"; Query.text := "vaccine trials" |}.

Definition queries : list Query.t := [q1; q2; q3].

Definition hits : list hit :=
  [ {| hit_id := "d1"; hit_score := 7 # 2 |};
    {| hit_id := "d2"; hit_score := 5 # 4 |} ].

(** A backend that answers every search with the same two hits. *)
Definition client_up : Elasticsearch :=
  {| msearch := fun _ call =>
       inr (map (fun _ => Hits hits) (bodies (searches call))) |}.

(** The same backend, except that its [k]-th request times out. *)
Definition client_failing_at (k : nat) : Elasticsearch :=
  {| msearch := fun n call =>
       if n =? k then inl "ConnectionTimeout" else msearch client_up n call |}.

Definition d1 : Doc.t :=
  {| Doc._id := "d1"; Doc.title := "Origins"; Doc.text := "Where it began" |}.
Definition d2 : Doc.t :=
  {| Doc._id := "d2"; Doc.title := "Masks"; Doc.text := "Do they help" |}.

Definition corpus : list Doc.t := [d1; d2].

(** A second row under the id of [d1], and a row of some earlier corpus. *)
Definition d1_again : Doc.t :=
  {| Doc._id := "d1"; Doc.title := "Origins, revised"; Doc.text := "Where it began" |}.
Definition d0 : Doc.t :=
  {| Doc._id := "d0"; Doc.title := "Earlier"; Doc.text := "Left in the index" |}.

(** A stand-in for the cross-encoder: it scores a pair by the length of its
    document text. *)
Definition model : CrossEncoder :=
  map (fun pair => Z.of_nat (String.length (snd pair)) # 10).

(** A first-stage result with a query that has no candidate. *)
Definition bm25_responses : ranking :=
  [("q1", [("d1", 7 # 2); ("d2", 5 # 4)]); ("q2", [])].

End Sample.

(** Per-query scores of three queries: 1, 1 and 1/log2(7); the same queries
    in another order; and the two means that are reported for them. *)
Module ScoreSample.
Import Floats.
#[local] Set Warnings "-inexact-float".

Definition sixth_place : Float64.t := 0.35620718710802218%float.

Definition eval_per_query : Dict.t (Dict.t Float64.t) :=
  [("q1", [("ndcg_cut_10", 1%float)]);
   ("q2", [("ndcg_cut_10", 1%float)]);
   ("q3", [("ndcg_cut_10", sixth_place)])].

Definition reordered : Dict.t (Dict.t Float64.t) :=
  [("q1", [("ndcg_cut_10", 1%float)]);
   ("q3", [("ndcg_cut_10", sixth_place)]);
   ("q2", [("ndcg_cut_10", 1%float)])].

Definition mean : Float64.t := 0.78540239570267412%float.
Definition mean_reordered : Float64.t := 0.78540239570267401%float.

End ScoreSample.

(* ================================================================= *)
(** * Properties *)

(** ** Facts about dictionaries *)

Module DictFacts.
Import Dict.

Section WithValues.
Context {V : Type}.
Implicit Types (d : Dict.t V) (k : string) (v : V).

Lemma get_set k k' v d :
  get k (set k' v d) = if String.eqb k k' then Some v else get k d.
Proof.
  induction d as [|[k0 v0] d IH]; simpl.
  - reflexivity.
  - destruct (String.eqb_spec k' k0) as [->|Hne]; simpl.
    + destruct (String.eqb_spec k k0); reflexivity.
    + rewrite IH.
      destruct (String.eqb_spec k k0) as [->|]; [|reflexivity].
      destruct (String.eqb_spec k0 k'); congruence.
Qed.

Lemma get_None k d : get k d = None <-> ~ In k (keys d).
Proof.
  induction d as [|[k0 v0] d IH]; simpl.
  - tauto.
  - destruct (String.eqb_spec k k0) as [->|Hne].
    + split; [discriminate | tauto].
    + rewrite IH. split; [intros H [E|I]; congruence || tauto | tauto].
Qed.

Lemma get_Some_in k v d : get k d = Some v -> In (k, v) d.
Proof.
  induction d as [|[k0 v0] d IH]; simpl; [discriminate|].
  destruct (String.eqb_spec k k0) as [->|Hne].
  - intros [= ->]. now left.
  - auto.
Qed.

Lemma in_keys_get k d : In k (keys d) <-> exists v, get k d = Some v.
Proof.
  destruct (get k d) as [v|] eqn:E.
  - split; [eauto|intros _].
    apply get_Some_in in E. apply (in_map fst) in E. exact E.
  - apply get_None in E. split; [tauto|intros [v [=]]].
Qed.

Lemma contains_in k d : contains k d = true <-> In k (keys d).
Proof.
  unfold contains. rewrite in_keys_get.
  destruct (get k d); split; eauto; intros [? [=]] || discriminate.
Qed.

Lemma set_old k v d : In k (keys d) -> keys (set k v d) = keys d.
Proof.
  induction d as [|[k0 v0] d IH]; simpl; [tauto|].
  destruct (String.eqb_spec k k0) as [->|Hne]; simpl; [reflexivity|].
  intros [E|I]; [congruence|]. now rewrite IH.
Qed.

Lemma set_new k v d : ~ In k (keys d) -> set k v d = d ++ [(k, v)].
Proof.
  induction d as [|[k0 v0] d IH]; simpl; [reflexivity|].
  destruct (String.eqb_spec k k0) as [->|Hne]; [tauto|].
  intros H. rewrite IH; tauto.
Qed.

Lemma in_keys_set k k' v d : In k (keys (set k' v d)) <-> k = k' \/ In k (keys d).
Proof.
  rewrite !in_keys_get, get_set.
  destruct (String.eqb_spec k k') as [->|Hne].
  - split; eauto.
  - split; [eauto|intros [E|H]; [congruence|exact H]].
Qed.

Lemma NoDup_keys_set k v d : NoDup (keys d) -> NoDup (keys (set k v d)).
Proof.
  intros H.
  destruct (in_dec string_dec k (keys d)) as [I|N].
  - now rewrite set_old.
  - rewrite set_new by exact N. unfold keys. rewrite map_app. simpl.
    apply NoDup_app; [exact H | repeat constructor; simpl; tauto | ].
    intros x Hx [<-|[]]. exact (N Hx).
Qed.

Lemma length_set_le k v d : length (set k v d) <= S (length d).
Proof.
  induction d as [|[k0 v0] d IH]; simpl; [lia|].
  destruct (String.eqb k k0); simpl; lia.
Qed.

Lemma update_nil d : update d [] = d.
Proof. reflexivity. Qed.

Lemma update_cons d kv o : update d (kv :: o) = update (set (fst kv) (snd kv) d) o.
Proof. reflexivity. Qed.

Lemma update_app d o1 o2 : update d (o1 ++ o2) = update (update d o1) o2.
Proof. unfold update. apply fold_left_app. Qed.

Lemma in_keys_update k d (o : list (string * V)) :
  In k (keys (update d o)) <-> In k (keys d) \/ In k (map fst o).
Proof.
  revert d. induction o as [|[k0 v0] o IH]; intros d.
  - simpl. tauto.
  - rewrite update_cons, IH, in_keys_set. simpl.
    split; intros H; intuition congruence.
Qed.

Lemma NoDup_keys_update d (o : list (string * V)) :
  NoDup (keys d) -> NoDup (keys (update d o)).
Proof.
  revert d. induction o as [|[k0 v0] o IH]; intros d H.
  - exact H.
  - rewrite update_cons. apply IH, NoDup_keys_set, H.
Qed.

Lemma length_update_le d (o : list (string * V)) :
  length (update d o) <= length d + length o.
Proof.
  revert d. induction o as [|[k0 v0] o IH]; intros d.
  - rewrite update_nil. simpl. lia.
  - rewrite update_cons. specialize (IH (set k0 v0 d)).
    pose proof (length_set_le k0 v0 d). simpl in *. lia.
Qed.

(** Pairs with fresh, pairwise distinct keys are appended as they are. *)
Lemma update_fresh d (o : list (string * V)) :
  NoDup (map fst o) -> (forall k, In k (map fst o) -> ~ In k (keys d)) ->
  update d o = d ++ o.
Proof.
  revert d. induction o as [|[k0 v0] o IH]; intros d Hnd Hfresh.
  - rewrite update_nil. now rewrite app_nil_r.
  - rewrite update_cons. simpl in *. inversion Hnd as [|? ? Hk0 Hnd']; subst.
    rewrite set_new by (apply Hfresh; now left).
    rewrite IH; [now rewrite <- app_assoc | exact Hnd' | ].
    intros k Hk. unfold keys. rewrite map_app, in_app_iff. simpl.
    intros [Hd|[<-|[]]]; [exact (Hfresh k (or_intror Hk) Hd) | exact (Hk0 Hk)].
Qed.

Lemma of_items_NoDup (kvs : list (string * V)) :
  NoDup (map fst kvs) -> of_items kvs = kvs.
Proof.
  intros H. unfold of_items. rewrite update_fresh; [reflexivity | exact H | ].
  intros k _ [].
Qed.

Lemma NoDup_keys_of_items (kvs : list (string * V)) : NoDup (keys (of_items kvs)).
Proof. apply NoDup_keys_update. constructor. Qed.

Lemma in_keys_of_items k (kvs : list (string * V)) :
  In k (keys (of_items kvs)) <-> In k (map fst kvs).
Proof. unfold of_items. rewrite in_keys_update. simpl. tauto. Qed.

Lemma length_of_items_le (kvs : list (string * V)) :
  length (of_items kvs) <= length kvs.
Proof. unfold of_items. pose proof (length_update_le empty kvs). simpl in *. lia. Qed.

Lemma get_app k d (d' : list (string * V)) :
  get k (d ++ d') = match get k d with Some v => Some v | None => get k d' end.
Proof.
  induction d as [|[k0 v0] d IH]; simpl; [reflexivity|].
  destruct (String.eqb k k0); [reflexivity | exact IH].
Qed.

(** The last pair written under a key is the one that stays. *)
Lemma get_update k d (o : list (string * V)) :
  get k (update d o) =
  match get k (rev o) with Some v => Some v | None => get k d end.
Proof.
  revert d. induction o as [|[k0 v0] o IH]; intros d.
  - reflexivity.
  - rewrite update_cons, IH. simpl. rewrite get_app, get_set. simpl.
    destruct (get k (rev o)); [reflexivity|].
    destruct (String.eqb k k0); reflexivity.
Qed.

Lemma in_items_get k v d : NoDup (keys d) -> In (k, v) d -> get k d = Some v.
Proof.
  induction d as [|[k0 v0] d IH]; simpl; [tauto|].
  intros Hnd [E|I].
  - inversion E; subst. now rewrite String.eqb_refl.
  - inversion Hnd as [|? ? Hk0 Hnd']; subst.
    destruct (String.eqb_spec k k0) as [->|Hne]; [|auto].
    exfalso. apply Hk0. change k0 with (fst (k0, v)). now apply in_map.
Qed.

End WithValues.
End DictFacts.

(* ================================================================= *)
(** ** The retriever sends its queries group by group *)

Section Retriever.
Variable es_client : Elasticsearch.
Variable index_name : string.
Variables size batch_size : Z.

Lemma requests_of_snoc (cur : list Query.t) (query : Query.t) :
  (requests_of size cur ++ [Header])
    ++ [Body (generate_request size (Query.text query))]
  = requests_of size (cur ++ [query]).
Proof.
  unfold requests_of. rewrite flat_map_app. simpl.
  now rewrite <- app_assoc.
Qed.

Lemma bodies_requests_of (batch : list Query.t) :
  bodies (requests_of size batch)
  = map (fun query => generate_request size (Query.text query)) batch.
Proof.
  induction batch as [|query batch IH]; simpl; [reflexivity|].
  now rewrite IH.
Qed.

(** [retrieve_batch] on a group, in terms of the group's outcome. *)
Lemma retrieve_batch_outcome (batch : list Query.t) (w : world) :
  retrieve_batch es_client index_name (map Query._id batch)
                 (requests_of size batch) w
  = (fst (batch_outcome es_client index_name size (length (msearch_log w)) batch),
     {| msearch_log := msearch_log w ++ [call_of index_name size batch];
        stdout := stdout w
                  ++ printed (batch_outcome es_client index_name size
                                            (length (msearch_log w)) batch) |}).
Proof.
  unfold retrieve_batch, batch_outcome, printed, call_of.
  destruct (msearch es_client _ _) as [e|responses]; simpl.
  - reflexivity.
  - destruct (fill_batch_dict _ _) as [batch_dict [e|]]; simpl.
    + reflexivity.
    + unfold sent. now rewrite app_nil_r.
Qed.

Lemma after_groups_cons batch groups acc w :
  after_groups es_client index_name size (batch :: groups) acc w
  = after_groups es_client index_name size groups
      (Dict.update acc
         (Dict.items (fst (batch_outcome es_client index_name size
                                         (length (msearch_log w)) batch))))
      {| msearch_log := msearch_log w ++ [call_of index_name size batch];
         stdout := stdout w
                   ++ printed (batch_outcome es_client index_name size
                                             (length (msearch_log w)) batch) |}.
Proof.
  unfold after_groups. simpl.
  rewrite length_app. simpl. rewrite Nat.add_1_r.
  rewrite <- !app_assoc. reflexivity.
Qed.

Lemma after_groups_nil acc w :
  after_groups es_client index_name size [] acc w = (acc, w).
Proof.
  unfold after_groups. simpl. rewrite !app_nil_r. now destruct w.
Qed.

Lemma retrieve_loop_groups (queries cur : list Query.t) (acc : ranking) (w : world) :
  let st := retrieve_loop es_client index_name size batch_size queries
              {| qids := map Query._id cur; requests := requests_of size cur;
                 es_responses := acc; env := w |} in
  (if 0 <? length (qids st) then
     let (batch_dict, w') :=
       retrieve_batch es_client index_name (qids st) (requests st) (env st) in
     (Dict.update (es_responses st) (Dict.items batch_dict), w')
   else (es_responses st, env st))
  = after_groups es_client index_name size
                 (batches_from batch_size cur queries) acc w.
Proof.
  revert cur acc w. induction queries as [|query rest IH]; intros cur acc w.
  - simpl. destruct cur as [|q0 cur'].
    + simpl. now rewrite after_groups_nil.
    + change (0 <? length (map Query._id (q0 :: cur'))) with true. cbv iota.
      rewrite retrieve_batch_outcome, after_groups_cons, after_groups_nil.
      reflexivity.
  - cbn [retrieve_loop batches_from qids requests es_responses env].
    rewrite requests_of_snoc.
    replace (map Query._id cur ++ [Query._id query])
      with (map Query._id (cur ++ [query])) by (now rewrite map_app).
    rewrite length_map.
    destruct (Z.of_nat (length (cur ++ [query])) =? batch_size)%Z.
    + rewrite retrieve_batch_outcome, after_groups_cons.
      exact (IH [] _ _).
    + exact (IH (cur ++ [query]) acc w).
Qed.

(** [retrieve] is the merge of the outcomes of its groups, requested one
    after the other. *)
Lemma retrieve_groups (queries : list Query.t) :
  retrieve queries es_client index_name size batch_size
  = after_groups es_client index_name size (batches batch_size queries)
                 Dict.empty world0.
Proof.
  unfold retrieve, batches.
  exact (retrieve_loop_groups queries [] Dict.empty world0).
Qed.

End Retriever.

(* ================================================================= *)
(** ** Groups, merged mappings and the mapping of one group *)

Lemma concat_batches_from (batch_size : Z) (queries cur : list Query.t) :
  concat (batches_from batch_size cur queries) = cur ++ queries.
Proof.
  revert cur. induction queries as [|query rest IH]; intros cur; simpl.
  - destruct cur; simpl; now rewrite ?app_nil_r.
  - destruct (Z.of_nat (length (cur ++ [query])) =? batch_size)%Z; simpl.
    + rewrite IH. simpl. now rewrite <- app_assoc.
    + rewrite IH. now rewrite <- app_assoc.
Qed.

Lemma concat_batches (batch_size : Z) (queries : list Query.t) :
  concat (batches batch_size queries) = queries.
Proof. exact (concat_batches_from batch_size queries []). Qed.

(** Every group but the last is full, and no group is empty. *)
Lemma batches_from_shape (batch_size : Z) (queries cur : list Query.t) :
  forall j batch,
    nth_error (batches_from batch_size cur queries) j = Some batch ->
    batch <> []
    /\ (S j < length (batches_from batch_size cur queries) ->
        Z.of_nat (length batch) = batch_size).
Proof.
  revert cur. induction queries as [|query rest IH]; intros cur j batch; simpl.
  - destruct cur as [|q0 cur']; [now destruct j|].
    destruct j as [|j]; simpl; [|now destruct j].
    intros [= <-]. split; [discriminate|lia].
  - destruct (Z.of_nat (length (cur ++ [query])) =? batch_size)%Z eqn:E.
    + destruct j as [|j]; simpl.
      * intros [= <-]. split; [now destruct cur|]. intros _. now apply Z.eqb_eq.
      * intros H. destruct (IH [] j batch H) as [Hne Hfull].
        split; [exact Hne|]. intros Hlt. apply Hfull. lia.
    + apply IH.
Qed.

Lemma in_set_inv {V : Type} (kv : string * V) k v (d : Dict.t V) :
  In kv (Dict.set k v d) -> kv = (k, v) \/ In kv d.
Proof.
  induction d as [|[k0 v0] d IH]; simpl.
  - intros [<-|[]]. now left.
  - destruct (String.eqb k k0); simpl.
    + intros [<-|H]; auto.
    + intros [<-|H]; auto. destruct (IH H); auto.
Qed.

Lemma in_update_inv {V : Type} (kv : string * V) (d : Dict.t V) o :
  In kv (Dict.update d o) -> In kv d \/ In kv o.
Proof.
  revert d. induction o as [|[k0 v0] o IH]; intros d.
  - simpl. auto.
  - rewrite DictFacts.update_cons. intros H.
    destruct (IH _ H) as [H1|H1]; [|right; now right].
    destruct (in_set_inv _ _ _ _ H1) as [->|H2]; [right; now left | now left].
Qed.

Lemma get_rev_NoDup {V : Type} k (d : Dict.t V) :
  NoDup (Dict.keys d) -> Dict.get k (rev d) = Dict.get k d.
Proof.
  intros Hnd.
  assert (Hrev : NoDup (Dict.keys (rev d))).
  { unfold Dict.keys. rewrite map_rev. now apply NoDup_rev. }
  destruct (Dict.get k d) as [v|] eqn:E.
  - apply DictFacts.in_items_get; [exact Hrev|].
    apply -> in_rev. now apply DictFacts.get_Some_in.
  - apply DictFacts.get_None. apply DictFacts.get_None in E.
    unfold Dict.keys in *. rewrite map_rev, <- in_rev. exact E.
Qed.

(** [d.update(other)] for a dict [other]: the entries of [other] win. *)
Lemma get_update_dict {V : Type} k (d other : Dict.t V) :
  NoDup (Dict.keys other) ->
  Dict.get k (Dict.update d (Dict.items other))
  = match Dict.get k other with Some v => Some v | None => Dict.get k d end.
Proof.
  intros Hnd. unfold Dict.items.
  now rewrite DictFacts.get_update, get_rev_NoDup.
Qed.

Lemma in_keys_merge k (dicts : list ranking) (acc : ranking) :
  In k (Dict.keys (merge acc dicts))
  <-> In k (Dict.keys acc) \/ exists d, In d dicts /\ In k (Dict.keys d).
Proof.
  revert acc. induction dicts as [|d dicts IH]; intros acc; simpl.
  - split; [auto|intros [H|[d [[] _]]]; exact H].
  - rewrite IH, DictFacts.in_keys_update. unfold Dict.items, Dict.keys.
    split.
    + intros [[H|H]|[d' [H1 H2]]]; eauto 6.
    + intros [H|[d' [[<-|H1] H2]]]; eauto 6.
Qed.

Lemma NoDup_keys_merge (dicts : list ranking) (acc : ranking) :
  NoDup (Dict.keys acc) -> NoDup (Dict.keys (merge acc dicts)).
Proof.
  revert acc. induction dicts as [|d dicts IH]; intros acc H; simpl.
  - exact H.
  - apply IH, DictFacts.NoDup_keys_update, H.
Qed.

Lemma in_merge_inv (kv : string * scores) (dicts : list ranking) (acc : ranking) :
  In kv (merge acc dicts) -> In kv acc \/ exists d, In d dicts /\ In kv d.
Proof.
  revert acc. induction dicts as [|d dicts IH]; intros acc; simpl.
  - auto.
  - intros H. destruct (IH _ H) as [H1|[d' [H1 H2]]]; [|eauto].
    destruct (in_update_inv _ _ _ H1); eauto.
Qed.

(** Two merges agree at a key when their mappings agree there pairwise. *)
Lemma get_merge_ext k (dicts dicts' : list ranking) :
  Forall2 (fun d d' => Dict.get k d = Dict.get k d') dicts dicts' ->
  Forall (fun d => NoDup (Dict.keys d)) dicts ->
  Forall (fun d => NoDup (Dict.keys d)) dicts' ->
  forall acc acc', Dict.get k acc = Dict.get k acc' ->
  Dict.get k (merge acc dicts) = Dict.get k (merge acc' dicts').
Proof.
  induction 1 as [|d d' dicts dicts' Hd _ IH]; intros Hnd Hnd' acc acc' Hacc.
  - exact Hacc.
  - inversion Hnd; inversion Hnd'; subst. simpl.
    apply IH; try assumption.
    rewrite !get_update_dict by assumption. rewrite Hd, Hacc. reflexivity.
Qed.

(** *** The loop of [retrieve_batch] *)

Lemma fill_batch_dict_keys pairs (batch_dict : ranking) k :
  In k (Dict.keys (fst (fill_batch_dict pairs batch_dict))) ->
  In k (Dict.keys batch_dict) \/ In k (map fst pairs).
Proof.
  revert batch_dict. induction pairs as [|[qid [hits|]] pairs IH];
    intros batch_dict; simpl; auto.
  intros H. destruct (IH _ H) as [H1|H1]; [|auto].
  apply DictFacts.in_keys_set in H1. intuition.
Qed.

Lemma fill_batch_dict_NoDup pairs (batch_dict : ranking) :
  NoDup (Dict.keys batch_dict) ->
  NoDup (Dict.keys (fst (fill_batch_dict pairs batch_dict))).
Proof.
  revert batch_dict. induction pairs as [|[qid [hits|]] pairs IH];
    intros batch_dict H; simpl; auto.
  apply IH, DictFacts.NoDup_keys_set, H.
Qed.

(** When every item carries hits the loop runs to its end: nothing is
    printed and every query id of the pairs has an entry. *)
Lemma fill_batch_dict_all_hits pairs (batch_dict : ranking) :
  Forall (fun p => exists hits, snd p = Hits hits) pairs ->
  snd (fill_batch_dict pairs batch_dict) = None
  /\ forall k, In k (Dict.keys (fst (fill_batch_dict pairs batch_dict)))
               <-> In k (Dict.keys batch_dict) \/ In k (map fst pairs).
Proof.
  revert batch_dict. induction pairs as [|[qid resp] pairs IH];
    intros batch_dict Hall; simpl.
  - split; [reflexivity|]. intros k. tauto.
  - inversion Hall as [|? ? [hits Hh] Hall']; subst. simpl in Hh. subst resp.
    destruct (IH (Dict.set qid (hits_dict hits) batch_dict) Hall') as [Hn Hk].
    split; [exact Hn|]. intros k. rewrite Hk, DictFacts.in_keys_set.
    intuition.
Qed.

(** Every entry the loop writes is the score map of the hits paired with
    its query id. *)
Lemma fill_batch_dict_values pairs (batch_dict : ranking) kv :
  In kv (fst (fill_batch_dict pairs batch_dict)) ->
  In kv batch_dict
  \/ exists hits, In (fst kv, Hits hits) pairs /\ snd kv = hits_dict hits.
Proof.
  revert batch_dict. induction pairs as [|[qid [hits|]] pairs IH];
    intros batch_dict; simpl; auto.
  intros H. destruct (IH _ H) as [H1|[hits' [H1 H2]]].
  - destruct (in_set_inv _ _ _ _ H1) as [->|H2]; [|auto].
    right. exists hits. simpl. auto.
  - right. exists hits'. auto.
Qed.

Lemma in_combine_nth_error {A B : Type} (a : A) (b : B) l l' :
  In (a, b) (combine l l') ->
  exists i, nth_error l i = Some a /\ nth_error l' i = Some b.
Proof.
  revert l'. induction l as [|x l IH]; intros [|y l']; simpl; try tauto.
  intros [[= -> ->]|H].
  - now exists 0.
  - destruct (IH _ H) as [i Hi]. now exists (S i).
Qed.

(* ================================================================= *)
(** ** What one group contributes *)

Section Outcomes.
Variable es_client : Elasticsearch.
Variable index_name : string.
Variable size : Z.

Let outcome := batch_outcome es_client index_name size.
Let outcomes := outcomes_from es_client index_name size.

Lemma nth_error_outcomes_from groups n j batch :
  nth_error groups j = Some batch ->
  nth_error (outcomes n groups) j = Some (outcome (n + j) batch).
Proof.
  revert n j. induction groups as [|b groups IH]; intros n [|j]; simpl;
    try discriminate.
  - intros [= ->]. now rewrite Nat.add_0_r.
  - intros H. rewrite Nat.add_succ_r. exact (IH (S n) j H).
Qed.

Lemma in_outcomes_from groups n o :
  In o (outcomes n groups) ->
  exists j batch, nth_error groups j = Some batch /\ o = outcome (n + j) batch.
Proof.
  revert n. induction groups as [|b groups IH]; intros n; simpl; [tauto|].
  intros [<-|H].
  - exists 0, b. now rewrite Nat.add_0_r.
  - destruct (IH _ H) as (j & batch & Hj & ->).
    exists (S j), batch. now rewrite Nat.add_succ_r.
Qed.

Lemma length_outcomes_from groups n : length (outcomes n groups) = length groups.
Proof.
  revert n. induction groups as [|b groups IH]; intros n; simpl; [reflexivity|].
  now rewrite IH.
Qed.

Lemma batch_outcome_keys n batch k :
  In k (Dict.keys (fst (outcome n batch))) -> In k (map Query._id batch).
Proof.
  unfold outcome, batch_outcome.
  destruct (msearch es_client n _) as [e|responses]; simpl; [tauto|].
  intros H. apply fill_batch_dict_keys in H. destruct H as [[]|H].
  apply in_map_iff in H. destruct H as ([qid resp] & <- & H).
  exact (in_combine_l _ _ _ _ H).
Qed.

Lemma batch_outcome_NoDup n batch : NoDup (Dict.keys (fst (outcome n batch))).
Proof.
  unfold outcome, batch_outcome.
  destruct (msearch es_client n _) as [e|responses]; simpl.
  - constructor.
  - apply fill_batch_dict_NoDup. constructor.
Qed.

Lemma batch_outcome_failed n batch e :
  msearch es_client n (call_of index_name size batch) = inl e ->
  outcome n batch = (Dict.empty, Some e).
Proof. unfold outcome, batch_outcome. now intros ->. Qed.

Lemma map_fst_combine_same_length {A B : Type} (l : list A) (l' : list B) :
  length l = length l' -> map fst (combine l l') = l.
Proof.
  revert l'. induction l as [|a l IH]; intros [|b l']; simpl; try discriminate.
  - reflexivity.
  - intros [= H]. now rewrite IH.
Qed.

Lemma batch_outcome_answered n batch :
  answered es_client n (call_of index_name size batch) ->
  snd (outcome n batch) = None
  /\ forall k, In k (Dict.keys (fst (outcome n batch)))
               <-> In k (map Query._id batch).
Proof.
  intros (responses & Hm & Hlen & Hhits).
  unfold outcome, batch_outcome. rewrite Hm.
  simpl in Hlen. rewrite bodies_requests_of, length_map in Hlen.
  destruct (fill_batch_dict_all_hits
              (combine (map Query._id batch) responses) Dict.empty) as [Hn Hk].
  - apply Forall_forall. intros [qid resp] Hin. simpl.
    apply in_combine_r in Hin.
    rewrite Forall_forall in Hhits. exact (Hhits _ Hin).
  - split; [exact Hn|]. intros k. rewrite Hk.
    rewrite map_fst_combine_same_length by (rewrite length_map; lia).
    simpl. tauto.
Qed.

Lemma outcomes_answered groups n :
  (forall j batch, nth_error groups j = Some batch ->
                   answered es_client (n + j) (call_of index_name size batch)) ->
  flat_map printed (outcomes n groups) = []
  /\ forall k, (exists d, In d (map fst (outcomes n groups)) /\ In k (Dict.keys d))
               <-> In k (map Query._id (concat groups)).
Proof.
  revert n. induction groups as [|b groups IH]; intros n Hans; simpl.
  - split; [reflexivity|]. intros k. split; [intros [d [[] _]]|tauto].
  - destruct (batch_outcome_answered n b) as [Hn Hk].
    { specialize (Hans 0 b eq_refl). now rewrite Nat.add_0_r in Hans. }
    destruct (IH (S n)) as [Hp Hks].
    { intros j batch Hj. specialize (Hans (S j) batch Hj).
      now rewrite Nat.add_succ_r in Hans. }
    split.
    + fold outcome outcomes. rewrite Hp. unfold printed. now rewrite Hn.
    + intros k. rewrite map_app, in_app_iff, <- Hk, <- Hks.
      fold outcome outcomes. split.
      * intros [d [[<-|Hd] Hin]]; eauto.
      * intros [H|[d [Hd Hin]]]; eauto.
Qed.

End Outcomes.

(* ================================================================= *)
(** ** Claims about [retrieve] *)

Lemma retrieve_log queries es_client index_name size batch_size :
  msearch_log (snd (retrieve queries es_client index_name size batch_size))
  = map (call_of index_name size) (batches batch_size queries).
Proof. rewrite retrieve_groups. reflexivity. Qed.

Lemma retrieve_result queries es_client index_name size batch_size :
  fst (retrieve queries es_client index_name size batch_size)
  = merge Dict.empty
      (map fst (outcomes_from es_client index_name size 0
                              (batches batch_size queries))).
Proof. rewrite retrieve_groups. reflexivity. Qed.

Lemma retrieve_stdout queries es_client index_name size batch_size :
  stdout (snd (retrieve queries es_client index_name size batch_size))
  = flat_map printed (outcomes_from es_client index_name size 0
                                    (batches batch_size queries)).
Proof. rewrite retrieve_groups. reflexivity. Qed.

(** C3: when no batch request fails, the mapping returned by [retrieve] has
    exactly one entry per input query id: its keys are pairwise distinct and
    they are the ids of the input queries; every query of every batch, the
    final shorter one included, has its entry; nothing is printed; and with
    distinct query ids the mapping has as many entries as there are queries. *)
Theorem retrieve_one_entry_per_query
  (queries : list Query.t) (es_client : Elasticsearch) (index_name : string)
  (size batch_size : Z) :
  let run := retrieve queries es_client index_name size batch_size in
  no_batch_request_fails es_client (msearch_log (snd run)) ->
  NoDup (Dict.keys (fst run))
  /\ (forall qid, In qid (Dict.keys (fst run)) <-> In qid (map Query._id queries))
  /\ (forall batch query,
        In batch (batches batch_size queries) -> In query batch ->
        exists res, Dict.get (Query._id query) (fst run) = Some res)
  /\ stdout (snd run) = []
  /\ (NoDup (map Query._id queries) -> Dict.len (fst run) = length queries).
Proof.
  intros run Hok. subst run.
  rewrite retrieve_log in Hok.
  rewrite retrieve_result, retrieve_stdout.
  destruct (outcomes_answered es_client index_name size
              (batches batch_size queries) 0) as [Hp Hk].
  { intros j batch Hj. apply Hok. simpl.
    now apply map_nth_error. }
  rewrite concat_batches in Hk.
  assert (Hnd : NoDup (Dict.keys (merge Dict.empty
             (map fst (outcomes_from es_client index_name size 0
                                     (batches batch_size queries)))))).
  { apply NoDup_keys_merge. constructor. }
  assert (Hkeys : forall qid,
             In qid (Dict.keys (merge Dict.empty
               (map fst (outcomes_from es_client index_name size 0
                                       (batches batch_size queries)))))
             <-> In qid (map Query._id queries)).
  { intros qid. rewrite in_keys_merge, Hk. simpl. tauto. }
  repeat split; try assumption; try (now apply Hkeys).
  { intros batch query Hb Hq. apply DictFacts.in_keys_get, Hkeys.
    rewrite <- (concat_batches batch_size queries).
    apply in_map, in_concat. eauto. }
  intros Hids. unfold Dict.len.
  rewrite <- (length_map fst), <- (length_map Query._id queries).
  apply Permutation_length, NoDup_Permutation; assumption.
Qed.

(** C4: provided the backend returns no more hits for a search than the
    [size] its body asks for, every score map in the result of [retrieve] has
    at most [size] pairs. *)
Theorem retrieve_at_most_size
  (queries : list Query.t) (es_client : Elasticsearch) (index_name : string)
  (size batch_size : Z) :
  let run := retrieve queries es_client index_name size batch_size in
  honours_size es_client (msearch_log (snd run)) ->
  forall qid res,
    Dict.get qid (fst run) = Some res ->
    (Z.of_nat (Dict.len res) <= size)%Z.
Proof.
  intros run Hsize qid res Hget. subst run.
  rewrite retrieve_log in Hsize. rewrite retrieve_result in Hget.
  apply DictFacts.get_Some_in, in_merge_inv in Hget.
  destruct Hget as [[]|(d & Hd & Hin)].
  apply in_map_iff in Hd. destruct Hd as (o & <- & Ho).
  apply in_outcomes_from in Ho. destruct Ho as (j & batch & Hj & ->).
  simpl in Hin. unfold batch_outcome in Hin.
  destruct (msearch es_client j (call_of index_name size batch))
    as [e|responses] eqn:Hm; simpl in Hin; [contradiction|].
  apply fill_batch_dict_values in Hin. destruct Hin as [[]|(hits & Hp & Hres)].
  simpl in Hp, Hres. subst res. apply in_combine_nth_error in Hp. destruct Hp as (i & Hi & Hr).
  destruct (nth_error batch i) as [query|] eqn:Hq.
  2:{ rewrite nth_error_map, Hq in Hi. discriminate. }
  assert (Hb : nth_error (bodies (searches (call_of index_name size batch))) i
               = Some (generate_request size (Query.text query))).
  { simpl. rewrite bodies_requests_of.
    exact (map_nth_error
             (fun q => generate_request size (Query.text q)) i batch Hq). }
  pose proof (Hsize j _ responses (map_nth_error _ _ _ Hj) Hm i _ hits Hb Hr)
    as Hle.
  simpl in Hle. unfold Dict.len, hits_dict.
  pose proof (DictFacts.length_of_items_le
                (map (fun h => (hit_id h, hit_score h)) hits)) as Hlen.
  rewrite length_map in Hlen. lia.
Qed.

Lemma bodies_of_log index_name size (groups : list (list Query.t)) :
  flat_map (fun call => bodies (searches call))
           (map (call_of index_name size) groups)
  = map (fun q => generate_request size (Query.text q)) (concat groups).
Proof.
  induction groups as [|batch groups IH]; simpl; [reflexivity|].
  now rewrite IH, bodies_requests_of, map_app.
Qed.

(** C9: every search body of every multi-search request that [retrieve]
    sends is a [best_fields] [multi_match] over exactly the two fields [title]
    and [txt] with tie breaker 0.5; and the bodies sent are, in order, the
    bodies [generate_request] builds for the input queries, one per query. *)
Theorem retrieve_requests_are_best_fields
  (queries : list Query.t) (es_client : Elasticsearch) (index_name : string)
  (size batch_size : Z) :
  Forall (fun call => Forall best_fields_title_txt (bodies (searches call)))
         (msearch_log (snd (retrieve queries es_client index_name size batch_size)))
  /\ flat_map (fun call => bodies (searches call))
       (msearch_log (snd (retrieve queries es_client index_name size batch_size)))
     = map (fun q => generate_request size (Query.text q)) queries.
Proof.
  rewrite retrieve_log. split.
  - apply Forall_forall. intros call Hcall.
    apply in_map_iff in Hcall. destruct Hcall as (batch & <- & _).
    simpl. rewrite bodies_requests_of.
    apply Forall_forall. intros b Hb.
    apply in_map_iff in Hb. destruct Hb as (q & <- & _).
    repeat split.
  - now rewrite bodies_of_log, concat_batches.
Qed.

Lemma outcomes_agree_off_batch (es_client es_client' : Elasticsearch)
  index_name size (k : nat) (qid : string) :
  (forall n call, n <> k -> msearch es_client' n call = msearch es_client n call) ->
  forall groups n,
    (forall j b, nth_error groups j = Some b -> n + j = k ->
                 ~ In qid (map Query._id b)) ->
    Forall2 (fun d d' => Dict.get qid d = Dict.get qid d')
      (map fst (outcomes_from es_client' index_name size n groups))
      (map fst (outcomes_from es_client index_name size n groups)).
Proof.
  intros Hagree. induction groups as [|b groups IH]; intros n Hoff; simpl.
  - constructor.
  - constructor.
    + destruct (Nat.eq_dec n k) as [->|Hne].
      * assert (Hb : ~ In qid (map Query._id b)).
        { apply (Hoff 0 b eq_refl). lia. }
        transitivity (@None scores); [|symmetry]; apply DictFacts.get_None;
          intros Hin; apply Hb; eapply batch_outcome_keys; exact Hin.
      * unfold batch_outcome. now rewrite (Hagree n _ Hne).
    + apply IH. intros j b' Hj Hk. apply (Hoff (S j) b' Hj). lia.
Qed.

Lemma NoDup_app_disjoint {A : Type} (l l' : list A) (x : A) :
  NoDup (l ++ l') -> In x l -> In x l' -> False.
Proof.
  induction l as [|a l IH]; simpl; [tauto|].
  intros Hnd [->|Hin] Hin'; inversion Hnd as [|? ? Hnotin Hnd']; subst.
  - apply Hnotin, in_or_app. now right.
  - now apply IH.
Qed.

Lemma NoDup_concat_disjoint {A B : Type} (f : A -> B) (groups : list (list A)) :
  NoDup (map f (concat groups)) ->
  forall j k a b x,
    nth_error groups j = Some a -> nth_error groups k = Some b -> j <> k ->
    In x (map f a) -> In x (map f b) -> False.
Proof.
  induction groups as [|g groups IH]; intros Hnd j k a b x Hj Hk Hjk Ha Hb.
  - now destruct j.
  - simpl in Hnd. rewrite map_app in Hnd.
    assert (Hin : forall i c, nth_error groups i = Some c -> In x (map f c) ->
                              In x (map f (concat groups))).
    { intros i c Hi Hc. apply nth_error_In in Hi.
      apply in_map_iff in Hc. destruct Hc as (y & <- & Hy).
      apply in_map, in_concat. eauto. }
    pose proof (NoDup_app_remove_l _ _ Hnd) as Hnd'.
    destruct j as [|j], k as [|k]; simpl in Hj, Hk.
    + congruence.
    + injection Hj as <-.
      eapply (NoDup_app_disjoint _ _ x Hnd); eauto.
    + injection Hk as <-.
      eapply (NoDup_app_disjoint _ _ x Hnd); eauto.
    + eapply (IH Hnd' j k a b x); eauto.
Qed.

(** C2, as the code has it: when the multi-search request of a batch raises,
    [retrieve_batch] catches the exception, prints it and returns the empty
    mapping after that single request, so the batch adds no entry for any of
    its query ids; the line is in the output of [retrieve]; a query id of the
    batch has no entry in the returned mapping unless another batch holds the
    same id (never, when the query ids are distinct); the entries of the
    queries outside the batch are the ones any other outcome of that request
    would leave; and exactly one request per batch was sent. *)
Theorem retrieve_drops_failed_batch
  (queries : list Query.t) (es_client : Elasticsearch) (index_name : string)
  (size batch_size : Z) (k : nat) (batch : list Query.t) (e : string) :
  nth_error (batches batch_size queries) k = Some batch ->
  msearch es_client k (call_of index_name size batch) = inl e ->
  let run := retrieve queries es_client index_name size batch_size in
  (forall w, length (msearch_log w) = k ->
     retrieve_batch es_client index_name (map Query._id batch)
                    (requests_of size batch) w
     = (Dict.empty, print e (sent (call_of index_name size batch) w)))
  /\ In e (stdout (snd run))
  /\ (forall qid, In qid (map Query._id batch) ->
        (forall j other, j <> k ->
           nth_error (batches batch_size queries) j = Some other ->
           ~ In qid (map Query._id other)) ->
        Dict.get qid (fst run) = None)
  /\ (NoDup (map Query._id queries) ->
      forall qid, In qid (map Query._id batch) -> Dict.get qid (fst run) = None)
  /\ (forall es_client',
        (forall n call, n <> k ->
           msearch es_client' n call = msearch es_client n call) ->
        forall qid, ~ In qid (map Query._id batch) ->
          Dict.get qid (fst (retrieve queries es_client' index_name size batch_size))
          = Dict.get qid (fst run))
  /\ msearch_log (snd run)
     = map (call_of index_name size) (batches batch_size queries).
Proof.
  intros Hk Hfail run. subst run.
  assert (Hdrop : forall qid, In qid (map Query._id batch) ->
            (forall j other, j <> k ->
               nth_error (batches batch_size queries) j = Some other ->
               ~ In qid (map Query._id other)) ->
            Dict.get qid (fst (retrieve queries es_client index_name size batch_size))
            = None).
  { intros qid Hqid Hother. rewrite retrieve_result.
    apply DictFacts.get_None. rewrite in_keys_merge.
    intros [[]|(d & Hd & Hin)].
    apply in_map_iff in Hd. destruct Hd as (o & <- & Ho).
    apply in_outcomes_from in Ho. destruct Ho as (j & other & Hj & ->).
    simpl in Hin. destruct (Nat.eq_dec j k) as [->|Hne].
    - rewrite Hk in Hj. injection Hj as <-.
      rewrite (batch_outcome_failed _ _ _ _ _ _ Hfail) in Hin. exact Hin.
    - apply (Hother j other Hne Hj).
      eapply batch_outcome_keys. exact Hin. }
  split; [|split; [|split; [|split; [|split]]]].
  - intros w Hw. unfold retrieve_batch. fold (call_of index_name size batch).
    rewrite Hw, Hfail. reflexivity.
  - rewrite retrieve_stdout. apply in_flat_map.
    exists (Dict.empty, Some e). split; [|now left].
    rewrite <- (batch_outcome_failed _ _ _ _ _ _ Hfail).
    eapply nth_error_In.
    exact (nth_error_outcomes_from es_client index_name size _ 0 k batch Hk).
  - exact Hdrop.
  - intros Hnd qid Hqid. apply Hdrop; [exact Hqid|].
    intros j other Hne Hj Hin.
    rewrite <- (concat_batches batch_size queries) in Hnd.
    exact (NoDup_concat_disjoint Query._id _ Hnd j k other batch qid
                                 Hj Hk Hne Hin Hqid).
  - intros es_client' Hagree qid Hqid. rewrite !retrieve_result.
    apply get_merge_ext; [| | |reflexivity].
    + apply (outcomes_agree_off_batch es_client es_client' index_name size k qid
                                      Hagree).
      intros j b Hj Hjk. simpl in Hjk. subst j. rewrite Hk in Hj.
      now injection Hj as <-.
    + apply Forall_forall. intros d Hd.
      apply in_map_iff in Hd. destruct Hd as (o & <- & Ho).
      apply in_outcomes_from in Ho. destruct Ho as (j & b & _ & ->).
      apply batch_outcome_NoDup.
    + apply Forall_forall. intros d Hd.
      apply in_map_iff in Hd. destruct Hd as (o & <- & Ho).
      apply in_outcomes_from in Ho. destruct Ho as (j & b & _ & ->).
      apply batch_outcome_NoDup.
  - apply retrieve_log.
Qed.

(** *** The claims on the sample run *)

(** A query id that occurs in two batches keeps the entry of the batch that
    succeeded, although the other batch was dropped. *)
Example retrieve_same_id_in_two_batches :
  retrieve [Sample.q1; Sample.q2; Sample.q1] (Sample.client_failing_at 0)
           "idx" 10 2
  = ([("q1", [("d1", 7 # 2); ("d2", 5 # 4)])],
     {| msearch_log := [call_of "idx" 10 [Sample.q1; Sample.q2];
                        call_of "idx" 10 [Sample.q1]];
        stdout := ["ConnectionTimeout"] |}).
Proof. reflexivity. Qed.

(** The claim as the spec has it fails: the request of the first batch
    [q1; q2] raises, and [q1], a query id of that batch, still has an entry
    in the returned mapping, the one written by the second batch. *)
Lemma retrieve_failed_batch_id_can_remain :
  nth_error (batches 2 [Sample.q1; Sample.q2; Sample.q1]) 0
  = Some [Sample.q1; Sample.q2]
  /\ msearch (Sample.client_failing_at 0) 0
             (call_of "idx" 10 [Sample.q1; Sample.q2])
     = inl "ConnectionTimeout"
  /\ In "q1" (map Query._id [Sample.q1; Sample.q2])
  /\ Dict.get "q1"
       (fst (retrieve [Sample.q1; Sample.q2; Sample.q1]
                      (Sample.client_failing_at 0) "idx" 10 2))
     = Some [("d1", 7 # 2); ("d2", 5 # 4)].
Proof.
  split; [reflexivity|]. split; [reflexivity|]. split; [now left|reflexivity].
Qed.

(** A response item without hits stops the loop of its batch: the entries
    written before it stay, the rest of the batch gets none. *)
Example retrieve_item_without_hits :
  fst (retrieve Sample.queries
         {| msearch := fun _ call =>
              inr (match bodies (searches call) with
                   | [] => []
                   | _ :: rest => Hits Sample.hits :: map (fun _ => NoHits) rest
                   end) |}
         "idx" 10 3)
  = [("q1", [("d1", 7 # 2); ("d2", 5 # 4)])].
Proof. reflexivity. Qed.

Lemma sample_ids_distinct : NoDup (map Query._id Sample.queries).
Proof.
  repeat constructor; simpl; intuition discriminate.
Qed.

Lemma client_up_answers log : no_batch_request_fails Sample.client_up log.
Proof.
  intros n call _. exists (map (fun _ => Hits Sample.hits) (bodies (searches call))).
  split; [reflexivity|]. split; [apply length_map|].
  apply Forall_forall. intros r Hr.
  apply in_map_iff in Hr. destruct Hr as (b & <- & _). now exists Sample.hits.
Qed.

Lemma nth_error_map_inv {A B : Type} (f : A -> B) l i y :
  nth_error (map f l) i = Some y -> exists x, nth_error l i = Some x /\ y = f x.
Proof.
  rewrite nth_error_map. destruct (nth_error l i) as [x|]; simpl; [|discriminate].
  intros [= <-]. now exists x.
Qed.

Lemma client_up_honours_size :
  honours_size Sample.client_up
    (msearch_log (snd (retrieve Sample.queries Sample.client_up "idx" 10 2))).
Proof.
  intros n call responses Hn Hm i b hits' Hb Hr.
  simpl in Hm. injection Hm as <-.
  apply nth_error_map_inv in Hr. destruct Hr as (b' & Hb' & [= ->]).
  rewrite Hb in Hb'. injection Hb' as <-.
  destruct n as [|[|[|n]]]; vm_compute in Hn; try discriminate;
    injection Hn as <-;
    (destruct i as [|[|[|i]]]; vm_compute in Hb; try discriminate;
     injection Hb as <-; vm_compute; discriminate).
Qed.

Lemma retrieve_one_entry_per_query_witness :
  no_batch_request_fails Sample.client_up
    (msearch_log (snd (retrieve Sample.queries Sample.client_up "idx" 10 2)))
  /\ (forall qid,
        In qid (Dict.keys (fst (retrieve Sample.queries Sample.client_up "idx" 10 2)))
        <-> In qid ["q1"; "q2"; "q3"])
  /\ Dict.len (fst (retrieve Sample.queries Sample.client_up "idx" 10 2)) = 3.
Proof.
  pose proof (retrieve_one_entry_per_query Sample.queries Sample.client_up
                "idx" 10 2 (client_up_answers _)) as (_ & Hkeys & _ & _ & Hlen).
  split; [apply client_up_answers|]. split; [exact Hkeys|].
  exact (Hlen sample_ids_distinct).
Defined.

Lemma retrieve_at_most_size_witness :
  honours_size Sample.client_up
    (msearch_log (snd (retrieve Sample.queries Sample.client_up "idx" 10 2)))
  /\ (forall qid res,
        Dict.get qid (fst (retrieve Sample.queries Sample.client_up "idx" 10 2))
        = Some res ->
        (Z.of_nat (Dict.len res) <= 10)%Z).
Proof.
  split; [exact client_up_honours_size|].
  exact (retrieve_at_most_size Sample.queries Sample.client_up "idx" 10 2
                               client_up_honours_size).
Defined.

Lemma retrieve_drops_failed_batch_witness :
  nth_error (batches 2 Sample.queries) 0 = Some [Sample.q1; Sample.q2]
  /\ msearch (Sample.client_failing_at 0) 0
             (call_of "idx" 10 [Sample.q1; Sample.q2])
     = inl "ConnectionTimeout"
  /\ In "ConnectionTimeout"
        (stdout (snd (retrieve Sample.queries (Sample.client_failing_at 0)
                               "idx" 10 2)))
  /\ Dict.get "q1" (fst (retrieve Sample.queries (Sample.client_failing_at 0)
                                  "idx" 10 2)) = None
  /\ Dict.get "q2" (fst (retrieve Sample.queries (Sample.client_failing_at 0)
                                  "idx" 10 2)) = None.
Proof.
  pose proof (retrieve_drops_failed_batch Sample.queries
                (Sample.client_failing_at 0) "idx" 10 2 0
                [Sample.q1; Sample.q2] "ConnectionTimeout" eq_refl eq_refl)
    as (_ & Hprinted & _ & Habsent & _).
  split; [reflexivity|]. split; [reflexivity|]. split; [exact Hprinted|].
  split; apply (Habsent sample_ids_distinct); simpl; tauto.
Defined.

(* ================================================================= *)
(** ** The reranker *)

Section Reranker.
Variable reranking_model : CrossEncoder.
Variables qd cd : Dict.t string.

(** The model returns one score per pair. *)
Hypothesis one_score_per_pair :
  forall pairs, length (reranking_model pairs) = length pairs.

Lemma doc_texts_of_length doc_ids doc_texts :
  doc_texts_of cd doc_ids = Ok doc_texts -> length doc_texts = length doc_ids.
Proof.
  revert doc_texts. induction doc_ids as [|doc_id rest IH]; intros doc_texts; simpl.
  - now intros [= <-].
  - unfold bind. destruct (getitem cd doc_id) as [t|]; [|discriminate].
    destruct (doc_texts_of cd rest) as [ts|]; [|discriminate].
    intros [= <-]. simpl. now rewrite (IH ts eq_refl).
Qed.

Lemma doc_texts_of_total doc_ids :
  (forall doc_id, In doc_id doc_ids -> In doc_id (Dict.keys cd)) ->
  exists doc_texts, doc_texts_of cd doc_ids = Ok doc_texts.
Proof.
  induction doc_ids as [|doc_id rest IH]; intros Hin; simpl.
  - now exists [].
  - destruct (proj1 (DictFacts.in_keys_get doc_id cd) (Hin _ (or_introl eq_refl)))
      as [t Ht].
    destruct IH as [ts Hts]; [intros; apply Hin; now right|].
    exists (t :: ts). unfold getitem. rewrite Ht. simpl. now rewrite Hts.
Qed.

Lemma rerank_query_keys qid (bm25_res res : scores) :
  rerank_query reranking_model qd cd qid bm25_res = Ok res ->
  (forall doc_id, In doc_id (Dict.keys res) <-> In doc_id (Dict.keys bm25_res))
  /\ (NoDup (Dict.keys bm25_res) -> Dict.keys res = Dict.keys bm25_res)
  /\ (bm25_res = Dict.empty -> res = Dict.empty).
Proof.
  unfold rerank_query, bind, Dict.items.
  destruct (getitem qd qid) as [query_text|]; [|discriminate].
  destruct (length (map fst bm25_res) =? 0) eqn:Hlen.
  - intros [= <-]. apply Nat.eqb_eq in Hlen. rewrite length_map in Hlen.
    destruct bm25_res; [|discriminate]. simpl. repeat split; tauto.
  - destruct (doc_texts_of cd (map fst bm25_res)) as [doc_texts|] eqn:Htexts;
      [|discriminate].
    intros [= <-].
    assert (Hfst : map fst (combine (map fst bm25_res)
                     (reranking_model (predict_input query_text doc_texts)))
                   = map fst bm25_res).
    { apply map_fst_combine_same_length.
      pose proof (doc_texts_of_length _ _ Htexts) as Hl.
      rewrite one_score_per_pair. unfold predict_input.
      rewrite !length_map in *. lia. }
    repeat split.
    + rewrite DictFacts.in_keys_of_items, Hfst. tauto.
    + rewrite DictFacts.in_keys_of_items, Hfst. tauto.
    + intros Hnd. rewrite DictFacts.of_items_NoDup by (now rewrite Hfst).
      exact Hfst.
    + intros ->. discriminate.
Qed.

Lemma rerank_query_total qid (bm25_res : scores) :
  In qid (Dict.keys qd) ->
  (forall doc_id, In doc_id (Dict.keys bm25_res) -> In doc_id (Dict.keys cd)) ->
  exists res, rerank_query reranking_model qd cd qid bm25_res = Ok res.
Proof.
  intros Hq Hdocs. unfold rerank_query, getitem.
  destruct (proj1 (DictFacts.in_keys_get qid qd) Hq) as [query_text ->]. simpl.
  destruct (length (map fst (Dict.items bm25_res)) =? 0); [eauto|].
  destruct (doc_texts_of_total (map fst (Dict.items bm25_res)) Hdocs)
    as [doc_texts ->].
  simpl. eauto.
Qed.

(** The loop writes, for each item in turn, the reranked score map of its
    query. *)
Lemma rerank_loop_spec todo acc out :
  rerank_loop reranking_model qd cd todo acc = Ok out ->
  exists rs,
    Forall2 (fun item res =>
               rerank_query reranking_model qd cd (fst item) (snd item) = Ok res)
            todo rs
    /\ out = Dict.update acc (combine (map fst todo) rs).
Proof.
  revert acc. induction todo as [|[qid bm25_res] todo IH]; intros acc; simpl.
  - intros [= <-]. exists []. split; [constructor|reflexivity].
  - unfold bind.
    destruct (rerank_query reranking_model qd cd qid bm25_res) as [res|] eqn:Hq;
      [|discriminate].
    intros Hloop. destruct (IH _ Hloop) as (rs & Hall & ->).
    exists (res :: rs). split; [now constructor|reflexivity].
Qed.

Lemma rerank_loop_total todo acc :
  (forall qid bm25_res, In (qid, bm25_res) todo ->
     In qid (Dict.keys qd)
     /\ forall doc_id, In doc_id (Dict.keys bm25_res) -> In doc_id (Dict.keys cd)) ->
  exists out, rerank_loop reranking_model qd cd todo acc = Ok out.
Proof.
  revert acc. induction todo as [|[qid bm25_res] todo IH]; intros acc Hin; simpl.
  - eauto.
  - destruct (Hin qid bm25_res (or_introl eq_refl)) as [Hq Hdocs].
    destruct (rerank_query_total qid bm25_res Hq Hdocs) as [res ->]. simpl.
    apply IH. intros q r Hqr. apply Hin. now right.
Qed.

End Reranker.

Lemma Forall2_length_eq {A B : Type} (P : A -> B -> Prop) l l' :
  Forall2 P l l' -> length l = length l'.
Proof. induction 1; simpl; congruence. Qed.

Lemma Forall2_in_combine {A B C : Type} (P : A -> B -> Prop) (f : A -> C) l l' x :
  Forall2 P l l' -> In x l ->
  exists y, In (f x, y) (combine (map f l) l') /\ P x y.
Proof.
  induction 1 as [|a b l l' Hab _ IH]; simpl; [tauto|].
  intros [->|Hin].
  - exists b. auto.
  - destruct (IH Hin) as (y & Hy & HP). exists y. auto.
Qed.

Lemma keys_queries_dict queries qid :
  In qid (Dict.keys (queries_dict queries)) <-> In qid (map Query._id queries).
Proof.
  unfold queries_dict. rewrite DictFacts.in_keys_of_items, map_map. simpl. tauto.
Qed.

Lemma keys_corpus_dict corpus doc_id :
  In doc_id (Dict.keys (corpus_dict corpus)) <-> In doc_id (map Doc._id corpus).
Proof.
  unfold corpus_dict. rewrite DictFacts.in_keys_of_items, map_map. simpl. tauto.
Qed.

(** C1: provided the model returns one score per pair, the reranked result
    has the same query ids as the first-stage result, and for every query its
    reranked score map has the same document ids as its first-stage score map
    (in the same order when that map is a dict); an empty first-stage map gives
    an empty map.  The loop ends without a [KeyError] whenever the query ids
    and document ids of the first-stage result occur in the queries and in the
    corpus. *)
Theorem reranking_keeps_document_ids
  (reranking_model : CrossEncoder) (queries : list Query.t) (corpus : list Doc.t)
  (bm25_responses : ranking) :
  (forall pairs, length (reranking_model pairs) = length pairs) ->
  NoDup (Dict.keys bm25_responses) ->
  (forall reranked,
     results_after_reranking reranking_model queries corpus bm25_responses
     = Ok reranked ->
     Dict.keys reranked = Dict.keys bm25_responses
     /\ forall qid bm25_res,
          Dict.get qid bm25_responses = Some bm25_res ->
          exists res,
            Dict.get qid reranked = Some res
            /\ (forall doc_id,
                  In doc_id (Dict.keys res) <-> In doc_id (Dict.keys bm25_res))
            /\ (NoDup (Dict.keys bm25_res) -> Dict.keys res = Dict.keys bm25_res)
            /\ (bm25_res = Dict.empty -> res = Dict.empty))
  /\ ((forall qid bm25_res,
         In (qid, bm25_res) (Dict.items bm25_responses) ->
         In qid (map Query._id queries)
         /\ forall doc_id, In doc_id (Dict.keys bm25_res) ->
                           In doc_id (map Doc._id corpus)) ->
      exists reranked,
        results_after_reranking reranking_model queries corpus bm25_responses
        = Ok reranked).
Proof.
  intros Hmodel Hnd. split.
  - intros reranked Hrun. unfold results_after_reranking, Dict.items in Hrun.
    apply rerank_loop_spec in Hrun. destruct Hrun as (rs & Hall & ->).
    assert (Hfst : map fst (combine (map fst bm25_responses) rs)
                   = map fst bm25_responses).
    { apply map_fst_combine_same_length. rewrite length_map.
      exact (Forall2_length_eq _ _ _ Hall). }
    fold (Dict.of_items (combine (map fst bm25_responses) rs)).
    rewrite DictFacts.of_items_NoDup by (rewrite Hfst; exact Hnd).
    split; [exact Hfst|].
    intros qid bm25_res Hget. apply DictFacts.get_Some_in in Hget.
    destruct (Forall2_in_combine _ fst _ _ _ Hall Hget) as (res & Hin & Hq).
    exists res. split.
    + apply DictFacts.in_items_get; [|exact Hin].
      unfold Dict.keys. rewrite Hfst. exact Hnd.
    + exact (rerank_query_keys reranking_model _ _ Hmodel _ _ _ Hq).
  - intros Hin. apply rerank_loop_total. intros qid bm25_res Hq.
    destruct (Hin qid bm25_res Hq) as [H1 H2]. split.
    + now apply keys_queries_dict.
    + intros doc_id Hd. apply keys_corpus_dict. now apply H2.
Qed.

(** *** Where the text of a candidate comes from *)






Lemma reranking_keeps_document_ids_witness :
  (forall pairs, length (Sample.model pairs) = length pairs)
  /\ NoDup (Dict.keys Sample.bm25_responses)
  /\ exists reranked,
       results_after_reranking Sample.model Sample.queries Sample.corpus
                               Sample.bm25_responses = Ok reranked
       /\ Dict.keys reranked = ["q1"; "q2"]
       /\ (exists res,
             Dict.get "q1" reranked = Some res
             /\ (forall doc_id,
                   In doc_id (Dict.keys res) <-> In doc_id ["d1"; "d2"]))
       /\ Dict.get "q2" reranked = Some Dict.empty.
Proof.
  assert (Hmodel : forall pairs, length (Sample.model pairs) = length pairs)
    by (intros pairs; apply length_map).
  assert (Hnd : NoDup (Dict.keys Sample.bm25_responses))
    by (repeat constructor; simpl; intuition discriminate).
  pose proof (reranking_keeps_document_ids Sample.model Sample.queries
                Sample.corpus Sample.bm25_responses Hmodel Hnd) as [Hkeys _].
  split; [exact Hmodel|]. split; [exact Hnd|].
  eexists. split; [vm_compute; reflexivity|].
  destruct (Hkeys _ eq_refl) as [Hk Hq]. split; [exact Hk|].
  split.
  - destruct (Hq "q1" _ eq_refl) as (res & Hres & Hdocs & _).
    exists res. split; [exact Hres | exact Hdocs].
  - destruct (Hq "q2" _ eq_refl) as (res & Hres & _ & _ & Hempty).
    rewrite <- (Hempty eq_refl). exact Hres.
Defined.


(* ================================================================= *)
(** ** Query ids from the judgments to the ranking results *)

Lemma keys_add_qrels qrels_raw (acc : Dict.t (Dict.t Z)) qid :
  In qid (Dict.keys (fold_left add_qrel qrels_raw acc))
  <-> In qid (Dict.keys acc) \/ In qid (map Qrel.query_id qrels_raw).
Proof.
  revert acc. induction qrels_raw as [|q raw IH]; intros acc; simpl.
  - tauto.
  - rewrite IH. unfold add_qrel. rewrite DictFacts.in_keys_set.
    split; intros H; intuition congruence.
Qed.

Lemma retrieve_keys_are_query_ids queries es_client index_name size batch_size qid :
  In qid (Dict.keys (fst (retrieve queries es_client index_name size batch_size))) ->
  In qid (map Query._id queries).
Proof.
  rewrite retrieve_result, in_keys_merge.
  intros [[]|(d & Hd & Hin)].
  apply in_map_iff in Hd. destruct Hd as (o & <- & Ho).
  apply in_outcomes_from in Ho. destruct Ho as (j & batch & Hj & ->).
  apply batch_outcome_keys in Hin. apply nth_error_In in Hj.
  rewrite <- (concat_batches batch_size queries).
  apply in_map_iff in Hin. destruct Hin as (q & <- & Hq).
  apply in_map, in_concat. eauto.
Qed.

Lemma retrieve_keys_NoDup queries es_client index_name size batch_size :
  NoDup (Dict.keys (fst (retrieve queries es_client index_name size batch_size))).
Proof. rewrite retrieve_result. apply NoDup_keys_merge. constructor. Qed.

Lemma reranked_keys reranking_model queries corpus (bm25_responses reranked : ranking) :
  NoDup (Dict.keys bm25_responses) ->
  results_after_reranking reranking_model queries corpus bm25_responses
  = Ok reranked ->
  Dict.keys reranked = Dict.keys bm25_responses.
Proof.
  intros Hnd Hrun. unfold results_after_reranking, Dict.items in Hrun.
  apply rerank_loop_spec in Hrun. destruct Hrun as (rs & Hall & ->).
  assert (Hfst : map fst (combine (map fst bm25_responses) rs)
                 = map fst bm25_responses).
  { apply map_fst_combine_same_length. rewrite length_map.
    exact (Forall2_length_eq _ _ _ Hall). }
  fold (Dict.of_items (combine (map fst bm25_responses) rs)).
  rewrite DictFacts.of_items_NoDup by (rewrite Hfst; exact Hnd).
  exact Hfst.
Qed.

(** C7: the keys of [qrels] are the query ids of the raw judgments, and the
    queries kept by [download_queries_and_qrels] are those of the raw queries
    whose id is a key of [qrels]; hence every query id that is a key of the
    first-stage result [retrieve] returns for them, or of the reranked result
    built from it, has an entry in [qrels]. *)
Theorem ranking_query_ids_are_judged
  (qrels_raw : list Qrel.t) (queries_raw : list Query.t)
  (es_client : Elasticsearch) (index_name : string) (size batch_size : Z)
  (reranking_model : CrossEncoder) (corpus : list Doc.t) :
  (forall qid,
     In qid (Dict.keys (snd (download_queries_and_qrels qrels_raw queries_raw)))
     <-> In qid (map Qrel.query_id qrels_raw))
  /\ (forall q, In q (fst (download_queries_and_qrels qrels_raw queries_raw))
             <-> In q queries_raw
                 /\ In (Query._id q)
                       (Dict.keys (snd (download_queries_and_qrels qrels_raw
                                                                   queries_raw))))
  /\ (forall qid,
        In qid (Dict.keys
                  (fst (retrieve (fst (download_queries_and_qrels qrels_raw
                                                                  queries_raw))
                                 es_client index_name size batch_size))) ->
        exists judged,
          Dict.get qid (snd (download_queries_and_qrels qrels_raw queries_raw))
          = Some judged)
  /\ (forall reranked qid,
        results_after_reranking reranking_model
          (fst (download_queries_and_qrels qrels_raw queries_raw)) corpus
          (fst (retrieve (fst (download_queries_and_qrels qrels_raw queries_raw))
                         es_client index_name size batch_size))
        = Ok reranked ->
        In qid (Dict.keys reranked) ->
        exists judged,
          Dict.get qid (snd (download_queries_and_qrels qrels_raw queries_raw))
          = Some judged).
Proof.
  assert (Hfilter : forall q,
            In q (fst (download_queries_and_qrels qrels_raw queries_raw))
            <-> In q queries_raw
                /\ In (Query._id q)
                      (Dict.keys (snd (download_queries_and_qrels qrels_raw
                                                                  queries_raw)))).
  { intros q. simpl. rewrite filter_In, DictFacts.contains_in. tauto. }
  assert (Hbm25 : forall qid,
            In qid (Dict.keys
                      (fst (retrieve (fst (download_queries_and_qrels qrels_raw
                                                                      queries_raw))
                                     es_client index_name size batch_size))) ->
            exists judged,
              Dict.get qid (snd (download_queries_and_qrels qrels_raw queries_raw))
              = Some judged).
  { intros qid Hin. apply retrieve_keys_are_query_ids in Hin.
    apply in_map_iff in Hin. destruct Hin as (q & <- & Hq).
    apply DictFacts.in_keys_get. now apply Hfilter. }
  split.
  { intros qid. simpl. rewrite keys_add_qrels. simpl. tauto. }
  split; [exact Hfilter|]. split; [exact Hbm25|].
  intros reranked qid Hrun Hin. apply Hbm25.
  rewrite <- (reranked_keys _ _ _ _ _ (retrieve_keys_NoDup _ _ _ _ _) Hrun).
  exact Hin.
Qed.

(* ================================================================= *)
(** ** Aggregating the metric *)

Section Aggregation.
Context {V : Type}.

Lemma get_so_far metric (acc : Dict.t (list V)) l :
  Dict.get metric acc = Some l
  <-> In metric (Dict.keys acc) /\ l = so_far metric acc.
Proof.
  unfold so_far. rewrite DictFacts.in_keys_get.
  destruct (Dict.get metric acc) as [l'|].
  - split; [intros [= ->]; eauto | intros [_ ->]; reflexivity].
  - split; [discriminate | intros [[? [=]] _]].
Qed.

Lemma so_far_append_score metric (acc : Dict.t (list V)) metric' s :
  so_far metric (append_score acc metric' s)
  = if String.eqb metric metric' then so_far metric acc ++ [s]
    else so_far metric acc.
Proof.
  unfold so_far at 1, append_score. rewrite DictFacts.get_set.
  destruct (String.eqb_spec metric metric') as [->|]; reflexivity.
Qed.

Lemma so_far_inner metric (vals : list (string * V)) acc :
  so_far metric
    (fold_left (fun acc' ms => append_score acc' (fst ms) (snd ms)) vals acc)
  = so_far metric acc
    ++ map snd (filter (fun ms => String.eqb metric (fst ms)) vals).
Proof.
  revert acc. induction vals as [|[m s] vals IH]; intros acc; simpl.
  - now rewrite app_nil_r.
  - rewrite IH, so_far_append_score.
    destruct (String.eqb metric m); simpl; [now rewrite <- app_assoc|reflexivity].
Qed.

Lemma keys_inner metric (vals : list (string * V)) acc :
  In metric (Dict.keys
    (fold_left (fun acc' ms => append_score acc' (fst ms) (snd ms)) vals acc))
  <-> In metric (Dict.keys acc) \/ In metric (map fst vals).
Proof.
  revert acc. induction vals as [|[m s] vals IH]; intros acc; simpl.
  - tauto.
  - rewrite IH. unfold append_score. rewrite DictFacts.in_keys_set.
    split; intros H; intuition congruence.
Qed.

Lemma NoDup_inner (vals : list (string * V)) acc :
  NoDup (Dict.keys acc) ->
  NoDup (Dict.keys
    (fold_left (fun acc' ms => append_score acc' (fst ms) (snd ms)) vals acc)).
Proof.
  revert acc. induction vals as [|[m s] vals IH]; intros acc H; simpl.
  - exact H.
  - apply IH. unfold append_score. now apply DictFacts.NoDup_keys_set.
Qed.

Lemma so_far_aggregate metric (items : list (string * Dict.t V)) acc :
  so_far metric (aggregate items acc)
  = so_far metric acc ++ scores_of_metric metric items.
Proof.
  revert acc. induction items as [|item items IH]; intros acc; simpl.
  - now rewrite app_nil_r.
  - unfold aggregate in *. simpl. rewrite IH, so_far_inner.
    unfold scores_of_metric, Dict.items. simpl. now rewrite <- app_assoc.
Qed.

Lemma keys_aggregate metric (items : list (string * Dict.t V)) acc :
  In metric (Dict.keys (aggregate items acc))
  <-> In metric (Dict.keys acc)
      \/ exists item, In item items /\ In metric (Dict.keys (snd item)).
Proof.
  revert acc. induction items as [|item items IH]; intros acc.
  - simpl. split; [tauto|intros [H|[? [[] _]]]; exact H].
  - unfold aggregate in *. simpl. rewrite IH, keys_inner.
    unfold Dict.items, Dict.keys. split.
    + intros [[H|H]|[it [H1 H2]]]; eauto 6.
    + intros [H|[it [[<-|H1] H2]]]; eauto 6.
Qed.

Lemma NoDup_aggregate (items : list (string * Dict.t V)) acc :
  NoDup (Dict.keys acc) -> NoDup (Dict.keys (aggregate items acc)).
Proof.
  revert acc. induction items as [|item items IH]; intros acc H.
  - exact H.
  - unfold aggregate in *. simpl. apply IH, NoDup_inner, H.
Qed.

(** The list collected for a metric is the list of its per-query scores, and
    a metric has a list exactly when some query has a score for it. *)
Lemma get_eval_scores metric (eval_per_query : Dict.t (Dict.t V)) l :
  Dict.get metric (eval_scores eval_per_query) = Some l
  <-> (exists item, In item eval_per_query /\ In metric (Dict.keys (snd item)))
      /\ l = scores_of_metric metric eval_per_query.
Proof.
  unfold eval_scores, Dict.items. rewrite get_so_far, so_far_aggregate, keys_aggregate.
  unfold so_far. simpl.
  split; intros [H ->]; (split; [|reflexivity]); [destruct H as [[]|H]|]; auto.
Qed.

Lemma NoDup_eval_scores (eval_per_query : Dict.t (Dict.t V)) :
  NoDup (Dict.keys (eval_scores eval_per_query)).
Proof. apply NoDup_aggregate. constructor. Qed.

Lemma scores_of_metric_Permutation metric (items items' : list (string * Dict.t V)) :
  Permutation items items' ->
  Permutation (scores_of_metric metric items) (scores_of_metric metric items').
Proof.
  intros H. unfold scores_of_metric, Dict.items.
  induction H; simpl.
  - constructor.
  - now apply Permutation_app_head.
  - rewrite !app_assoc. apply Permutation_app_tail, Permutation_app_comm.
  - etransitivity; eassumption.
Qed.

Lemma scores_absent metric (vals : Dict.t V) :
  ~ In metric (Dict.keys vals) ->
  filter (fun ms => String.eqb metric (fst ms)) vals = [].
Proof.
  induction vals as [|[m s] vals IH]; simpl; [reflexivity|].
  intros H. destruct (String.eqb_spec metric m) as [->|_]; [tauto|].
  apply IH. tauto.
Qed.

Lemma scores_of_one_query metric (vals : Dict.t V) value :
  NoDup (Dict.keys vals) -> Dict.get metric vals = Some value ->
  map snd (filter (fun ms => String.eqb metric (fst ms)) vals) = [value].
Proof.
  induction vals as [|[m s] vals IH]; simpl; [discriminate|].
  intros Hnd Hget. inversion Hnd as [|? ? Hm Hnd']; subst.
  destruct (String.eqb_spec metric m) as [->|_].
  - injection Hget as ->. simpl. now rewrite scores_absent.
  - now apply IH.
Qed.

(** When every query has a score for the metric, the list that is averaged
    holds exactly that score for each query, in the order of the queries. *)
Lemma scores_of_metric_one_per_query metric (items : list (string * Dict.t V)) :
  (forall item, In item items ->
     NoDup (Dict.keys (snd item)) /\ In metric (Dict.keys (snd item))) ->
  Forall2 (fun item value => Dict.get metric (snd item) = Some value)
          items (scores_of_metric metric items).
Proof.
  induction items as [|item items IH]; intros Hall.
  - constructor.
  - destruct (Hall item (or_introl eq_refl)) as [Hnd Hin].
    apply DictFacts.in_keys_get in Hin. destruct Hin as [value Hget].
    unfold scores_of_metric, Dict.items. simpl.
    rewrite (scores_of_one_query metric (snd item) value Hnd Hget). simpl.
    constructor; [exact Hget|]. apply IH. intros it Hit. apply Hall. now right.
Qed.

End Aggregation.

(** *** Sums over the reals *)

Lemma fold_left_Rplus (l : list R) (a : R) :
  fold_left Rplus l a = (a + fold_right Rplus 0 l)%R.
Proof.
  revert a. induction l as [|x l IH]; intros a; simpl.
  - lra.
  - rewrite IH. lra.
Qed.

(** *** The binary64 mean *)

(** The pairwise sum does not depend on the fuel once the fuel is the length
    of the list: the recursion always has fuel left. *)
Lemma pairwise_sum_fuel (fuel fuel' : nat) (a : list Float64.t) :
  length a <= fuel -> length a <= fuel' ->
  Float64.pairwise_sum fuel a = Float64.pairwise_sum fuel' a.
Proof.
  revert fuel' a. induction fuel as [|fuel IH]; intros fuel' a H H'.
  - destruct a; [|simpl in H; lia]. destruct fuel'; reflexivity.
  - destruct fuel' as [|fuel'].
    + destruct a; [|simpl in H'; lia]. reflexivity.
    + cbn [Float64.pairwise_sum].
      destruct (Nat.leb_spec (length a) Float64.PW_BLOCKSIZE) as [_|Hbig];
        [reflexivity|].
      unfold Float64.PW_BLOCKSIZE in Hbig.
      pose proof (Nat.div_mod_eq (length a) 2) as Hdiv.
      pose proof (Nat.mod_upper_bound (length a) 2 ltac:(discriminate)) as Hm2.
      pose proof (Nat.div_mod_eq (length a / 2) 8) as Hdiv8.
      pose proof (Nat.mod_upper_bound (length a / 2) 8 ltac:(discriminate)) as Hm8.
      rewrite (IH fuel' (firstn _ a)), (IH fuel' (skipn _ a));
        [reflexivity| | | | ];
        rewrite ?length_firstn, ?length_skipn; lia.
Qed.

(** The exact mean of finitely many numbers does not depend on their order. *)
Lemma Qsum_Permutation (l l' : list Q) :
  Permutation l l' ->
  (fold_right Qplus 0 l == fold_right Qplus 0 l')%Q.
Proof.
  induction 1 as [|x l l' _ IH|x y l|l l' l'' _ IH1 _ IH2]; simpl.
  - reflexivity.
  - now rewrite IH.
  - rewrite !Qplus_assoc, (Qplus_comm y x). reflexivity.
  - now rewrite IH1.
Qed.

Lemma exact_mean_Permutation (a a' : list Float64.t) :
  Permutation a a' -> (Float64.exact_mean a == Float64.exact_mean a')%Q.
Proof.
  intros H. unfold Float64.exact_mean.
  rewrite (Permutation_length H).
  apply Qdiv_comp; [|reflexivity].
  apply Qsum_Permutation, Permutation_map, H.
Qed.

(** What is reported for a metric. *)
Lemma in_report metric value (eval_per_query : Dict.t (Dict.t Float64.t)) :
  In (metric, value) (report (eval_scores eval_per_query))
  <-> (exists item, In item eval_per_query /\ In metric (Dict.keys (snd item)))
      /\ value = Float64.np_mean (scores_of_metric metric eval_per_query).
Proof.
  unfold report, Dict.items. rewrite in_map_iff. split.
  - intros ([m l] & Heq & Hin). simpl in Heq. injection Heq as -> <-.
    apply DictFacts.in_items_get in Hin; [|apply NoDup_eval_scores].
    apply get_eval_scores in Hin. destruct Hin as [Hex ->]. now split.
  - intros [Hex ->].
    exists (metric, scores_of_metric metric eval_per_query).
    split; [reflexivity|].
    apply DictFacts.get_Some_in, get_eval_scores. now split.
Qed.

Lemma reported_metrics (eval_per_query : Dict.t (Dict.t Float64.t)) :
  map fst (report (eval_scores eval_per_query))
  = Dict.keys (eval_scores eval_per_query).
Proof.
  unfold report, Dict.items, Dict.keys. rewrite map_map. reflexivity.
Qed.

(** C5, as the code has it: a metric is reported exactly when some query has
    a score for it, once, with numpy's binary64 mean of its per-query scores
    taken in the order of the queries: their pairwise sum divided by their
    number.  When every query has a score for the metric these are exactly
    one score per query, each with the same weight.  Reordering the queries
    permutes the scores that are averaged: the same metrics are reported and
    the mean in exact arithmetic is the same, while the reported binary64
    value may change. *)
Theorem reported_mean_is_numpy_mean_in_query_order
  (eval_per_query : Dict.t (Dict.t Float64.t)) :
  (forall metric value,
     In (metric, value) (report (eval_scores eval_per_query))
     <-> (exists item, In item (Dict.items eval_per_query)
                       /\ In metric (Dict.keys (snd item)))
         /\ value = Float64.np_mean (scores_of_metric metric eval_per_query))
  /\ NoDup (map fst (report (eval_scores eval_per_query)))
  /\ (forall metric,
        (forall item, In item (Dict.items eval_per_query) ->
           NoDup (Dict.keys (snd item)) /\ In metric (Dict.keys (snd item))) ->
        Forall2 (fun item value => Dict.get metric (snd item) = Some value)
                (Dict.items eval_per_query)
                (scores_of_metric metric eval_per_query))
  /\ (forall reordered,
        Permutation (Dict.items eval_per_query) (Dict.items reordered) ->
        forall metric,
          Permutation (scores_of_metric metric eval_per_query)
                      (scores_of_metric metric reordered)
          /\ (In metric (map fst (report (eval_scores eval_per_query)))
              <-> In metric (map fst (report (eval_scores reordered))))
          /\ (Float64.exact_mean (scores_of_metric metric eval_per_query)
              == Float64.exact_mean (scores_of_metric metric reordered))%Q).
Proof.
  split; [|split; [|split]].
  - intros metric value. apply in_report.
  - rewrite reported_metrics. apply NoDup_eval_scores.
  - intros metric. apply scores_of_metric_one_per_query.
  - intros reordered Hperm metric. unfold Dict.items in Hperm.
    pose proof (scores_of_metric_Permutation metric _ _ Hperm) as Hscores.
    split; [exact Hscores|]. split; [|now apply exact_mean_Permutation].
    rewrite !reported_metrics. unfold eval_scores, Dict.items.
    rewrite !keys_aggregate.
    split; (intros [[]|(item & Hin & Hm)]; right; exists item; split; [|exact Hm]).
    + exact (Permutation_in _ Hperm Hin).
    + exact (Permutation_in _ (Permutation_sym Hperm) Hin).
Qed.

(** The claim as the spec has it fails: three queries with the scores 1, 1
    and 1/log2(7) (the only relevant document ranked sixth) are reported with
    another mean when the last two queries change places. *)
Lemma reported_mean_depends_on_query_order :
  Permutation (Dict.items ScoreSample.eval_per_query)
              (Dict.items ScoreSample.reordered)
  /\ report (eval_scores ScoreSample.eval_per_query)
     = [("ndcg_cut_10", ScoreSample.mean)]
  /\ report (eval_scores ScoreSample.reordered)
     = [("ndcg_cut_10", ScoreSample.mean_reordered)]
  /\ ScoreSample.mean <> ScoreSample.mean_reordered.
Proof.
  split; [|split; [|split]].
  - unfold ScoreSample.eval_per_query, ScoreSample.reordered, Dict.items.
    apply perm_skip, perm_swap.
  - vm_compute. reflexivity.
  - vm_compute. reflexivity.
  - intros H. apply (f_equal Floats.FloatOps.Prim2SF) in H. vm_compute in H.
    discriminate H.
Qed.

(* ================================================================= *)
(** ** The worked example of nDCG@10 *)

Lemma ln_2_pos : (0 < ln 2)%R.
Proof. rewrite <- ln_1. apply ln_increasing; lra. Qed.

Lemma discount_1 : discount 1 = 1%R.
Proof.
  unfold discount, log2. simpl INR.
  replace (1 + 1)%R with 2%R by lra.
  pose proof ln_2_pos. field. lra.
Qed.

(** C6: with the judgments [{"q1": {"d1": 1}}] and the ranking
    [{"q1": {"d1": 0.9, "d2": 0.1}}], nDCG@10 of query [q1] is 1: the value
    of the measure, and the value the evaluator returns for [q1]. *)
Theorem ndcg_cut_10_example :
  ndcg_cut 10 [("d1", 1%Z)] [("d1", 9 # 10); ("d2", 1 # 10)] = 1%R
  /\ Dict.get "q1"
       (evaluate [("q1", [("d1", 1%Z)])]
                 [("q1", [("d1", 9 # 10); ("d2", 1 # 10)])])
     = Some [("ndcg_cut_10", 1%R)].
Proof.
  assert (Hvalue :
            ndcg_cut 10 [("d1", 1%Z)] [("d1", 9 # 10); ("d2", 1 # 10)] = 1%R).
  { unfold ndcg_cut.
    change (top_k_doc_ids 10 [("d1", 9 # 10); ("d2", 1 # 10)])
      with ["d1"; "d2"].
    change (ideal_gains 10 [("d1", 1%Z)]) with [IZR 1].
    change (map (gain [("d1", 1%Z)]) ["d1"; "d2"]) with [IZR 1; 0%R].
    cbn [dcg_from]. rewrite discount_1. field. }
  split; [exact Hvalue|].
  unfold evaluate. cbn [Dict.items flat_map fst snd Dict.get String.eqb Ascii.eqb
                         Bool.eqb app].
  rewrite Hvalue. reflexivity.
Qed.

(** Every query the evaluator scores gets exactly the one metric asked for,
    so [scores_of_metric "ndcg_cut_10"] holds one value per scored query. *)
Lemma evaluate_one_metric_per_query (qrels : Dict.t (Dict.t Z)) (run : ranking) item :
  In item (Dict.items (evaluate qrels run)) ->
  NoDup (Dict.keys (snd item)) /\ In "ndcg_cut_10" (Dict.keys (snd item)).
Proof.
  unfold evaluate, Dict.of_items, Dict.items. intros Hin.
  apply in_update_inv in Hin. destruct Hin as [[]|Hin].
  apply in_flat_map in Hin. destruct Hin as ([qid res] & _ & Hin). simpl in Hin.
  destruct (Dict.get qid qrels) as [judged|]; [|contradiction].
  destruct Hin as [<-|[]]. simpl. split; [|now left].
  repeat constructor. simpl. tauto.
Qed.

(** With the relevant document ranked second, the value is its discount. *)
Example ndcg_cut_10_second_place :
  ndcg_cut 10 [("d1", 1%Z)] [("d1", 1 # 10); ("d2", 9 # 10)] = discount 2.
Proof.
  unfold ndcg_cut.
  change (top_k_doc_ids 10 [("d1", 1 # 10); ("d2", 9 # 10)]) with ["d2"; "d1"].
  change (ideal_gains 10 [("d1", 1%Z)]) with [IZR 1].
  change (map (gain [("d1", 1%Z)]) ["d2"; "d1"]) with [0%R; IZR 1].
  cbn [dcg_from]. rewrite discount_1. field.
Qed.

(* ================================================================= *)
(** ** Indexing the corpus *)

Lemma zip3_rows (corpus : list Doc.t) :
  zip3 corpus = map (fun doc => (Doc._id doc, Doc.title doc, Doc.text doc)) corpus.
Proof.
  unfold zip3. induction corpus as [|doc corpus IH]; simpl; [reflexivity|].
  now rewrite IH.
Qed.

(** One action per corpus row, in row order. *)
Lemma get_iterable_rows (corpus : list Doc.t) :
  get_iterable corpus
  = map (fun doc => {| Action._id := Doc._id doc;
                       Action._op_type := "index";
                       Action.refresh := "wait_for";
                       Action.title := Doc.title doc;
                       Action.txt := Doc.text doc |}) corpus.
Proof. unfold get_iterable. now rewrite zip3_rows, map_map. Qed.

Lemma written_after_actions (corpus : list Doc.t) (ix : Backend.es_index) :
  Backend.written
    (fold_left (fun ix a => Backend.write a ix) (get_iterable corpus) ix)
  = Dict.update (Backend.written ix)
      (map (fun doc => (Doc._id doc, stored_document doc)) corpus).
Proof.
  rewrite get_iterable_rows. revert ix.
  induction corpus as [|doc corpus IH]; intros ix; simpl; [reflexivity|].
  rewrite IH. reflexivity.
Qed.

Lemma count_index_corpus (corpus : list Doc.t) (index_name : string)
  (c : Backend.cluster) :
  Backend.count index_name (index_corpus corpus index_name c)
  = Dict.len (Dict.update (written_in index_name c)
                (map (fun doc => (Doc._id doc, stored_document doc)) corpus)).
Proof.
  unfold index_corpus, Backend.count, Backend.indices_refresh, Backend.bulk,
    written_in.
  rewrite !DictFacts.get_set, String.eqb_refl.
  rewrite DictFacts.get_set, String.eqb_refl. simpl.
  rewrite written_after_actions.
  destruct (Dict.get index_name c); reflexivity.
Qed.

Lemma NoDup_same_members_length {A : Type} (l l' : list A) :
  NoDup l -> NoDup l' -> (forall x, In x l <-> In x l') -> length l = length l'.
Proof.
  intros H H' Hin. apply Permutation_length, NoDup_Permutation; assumption.
Qed.

(** C8, as the code has it: after [index_corpus] the index counts one
    document per distinct id among the documents it held before and the
    corpus rows; the count equals the number of corpus rows when the corpus
    ids are pairwise distinct and the index held no document under another
    id. *)
Theorem index_corpus_counts_distinct_ids
  (corpus : list Doc.t) (index_name : string) (c : Backend.cluster) :
  NoDup (Dict.keys (written_in index_name c)) ->
  Backend.count index_name (index_corpus corpus index_name c)
  = length (nodup string_dec
              (Dict.keys (written_in index_name c) ++ map Doc._id corpus))
  /\ (NoDup (map Doc._id corpus) ->
      (forall id, In id (Dict.keys (written_in index_name c)) ->
                  In id (map Doc._id corpus)) ->
      Backend.count index_name (index_corpus corpus index_name c)
      = length corpus).
Proof.
  intros Hwf. rewrite count_index_corpus. unfold Dict.len.
  set (after := Dict.update (written_in index_name c)
                  (map (fun doc => (Doc._id doc, stored_document doc)) corpus)).
  assert (Hnd : NoDup (Dict.keys after))
    by (now apply DictFacts.NoDup_keys_update).
  assert (Hkeys : forall id, In id (Dict.keys after)
                  <-> In id (Dict.keys (written_in index_name c))
                      \/ In id (map Doc._id corpus)).
  { intros id. unfold after. rewrite DictFacts.in_keys_update, map_map.
    simpl. tauto. }
  rewrite <- (length_map fst after). fold (Dict.keys after). split.
  - apply NoDup_same_members_length; [exact Hnd | apply NoDup_nodup | ].
    intros id. rewrite nodup_In, in_app_iff. apply Hkeys.
  - intros Hids Hsub. rewrite <- (length_map Doc._id corpus).
    apply NoDup_same_members_length; [exact Hnd | exact Hids | ].
    intros id. rewrite Hkeys. split; [intros [H|H]; auto | auto].
Qed.

(** Two rows under one id leave one document in a new index; and two rows
    indexed into an index that is reused and already holds another document
    leave three. *)
Lemma index_corpus_count_is_not_rows :
  (Backend.count "idx"
     (index_corpus [Sample.d1; Sample.d1_again] "idx"
        (create_index Dict.empty "idx" "english")) = 1
   /\ length [Sample.d1; Sample.d1_again] = 2
   /\ Backend.count "idx"
        (index_corpus [Sample.d1; Sample.d1_again] "idx"
           (create_index Dict.empty "idx" "english"))
      <> length [Sample.d1; Sample.d1_again])
  /\ (Backend.count "idx"
        (index_corpus Sample.corpus "idx"
           (create_index
              (index_corpus [Sample.d0] "idx"
                 (create_index Dict.empty "idx" "english"))
              "idx" "english")) = 3
      /\ length Sample.corpus = 2).
Proof. repeat split. discriminate. Qed.

Lemma index_corpus_counts_distinct_ids_witness :
  NoDup (Dict.keys (written_in "idx" (create_index Dict.empty "idx" "english")))
  /\ Backend.count "idx"
       (index_corpus Sample.corpus "idx" (create_index Dict.empty "idx" "english"))
     = length Sample.corpus.
Proof.
  assert (Hwf : NoDup (Dict.keys (written_in "idx"
                         (create_index Dict.empty "idx" "english"))))
    by constructor.
  split; [exact Hwf|].
  apply (index_corpus_counts_distinct_ids Sample.corpus "idx" _ Hwf).
  - repeat constructor; simpl; intuition discriminate.
  - intros id [].
Defined.

(* ================================================================= *)
(** * Further properties *)

(** ** How [retrieve] cuts its queries into requests *)

Lemma length_batches_from (batch_size : Z) (queries cur : list Query.t) :
  (0 < batch_size)%Z ->
  (Z.of_nat (length cur) < batch_size)%Z ->
  Z.of_nat (length (batches_from batch_size cur queries))
  = ((Z.of_nat (length cur) + Z.of_nat (length queries) + batch_size - 1)
     / batch_size)%Z.
Proof.
  intros Hpos. revert cur. induction queries as [|query rest IH]; intros cur Hcur.
  - simpl (batches_from _ _ _). destruct cur as [|q0 cur'].
    + simpl. symmetry. apply Z.div_small. lia.
    + cbn [length] in *.
      apply (Z.div_unique _ _ 1 (Z.of_nat (length cur'))); lia.
  - cbn [batches_from].
    assert (Hlen : length (cur ++ [query]) = S (length cur))
      by (rewrite length_app; simpl; lia).
    destruct (Z.of_nat (length (cur ++ [query])) =? batch_size)%Z eqn:E.
    + apply Z.eqb_eq in E. cbn [length]. rewrite Nat2Z.inj_succ, IH by (simpl; lia).
      simpl length. rewrite Hlen in E.
      replace (Z.of_nat (length cur) + Z.of_nat (S (length rest)) + batch_size - 1)%Z
        with (1 * batch_size + (Z.of_nat 0 + Z.of_nat (length rest) + batch_size - 1))%Z
        by lia.
      rewrite Z.div_add_l by lia. lia.
    + apply Z.eqb_neq in E. rewrite IH by lia.
      f_equal. simpl length. lia.
Qed.

(** A positive [batch_size] gives one request per started group of
    [batch_size] queries: the requests number the query count divided by
    [batch_size], rounded up. *)
Theorem retrieve_request_count
  (queries : list Query.t) (es_client : Elasticsearch) (index_name : string)
  (size batch_size : Z) :
  (0 < batch_size)%Z ->
  Z.of_nat (length (msearch_log
                      (snd (retrieve queries es_client index_name size batch_size))))
  = ((Z.of_nat (length queries) + batch_size - 1) / batch_size)%Z.
Proof.
  intros Hpos. rewrite retrieve_log, length_map. unfold batches.
  rewrite length_batches_from by (simpl; lia). simpl length. f_equal.
Qed.

Lemma retrieve_request_count_witness :
  (0 < 2)%Z
  /\ Z.of_nat (length (msearch_log
                         (snd (retrieve Sample.queries Sample.client_up "idx" 10 2))))
     = ((Z.of_nat (length Sample.queries) + 2 - 1) / 2)%Z.
Proof.
  split; [reflexivity|].
  exact (retrieve_request_count Sample.queries Sample.client_up "idx" 10 2 eq_refl).
Defined.

Lemma batches_from_never_full (batch_size : Z) (queries cur : list Query.t) :
  (forall m, length cur < m <= length cur + length queries ->
             Z.of_nat m <> batch_size) ->
  batches_from batch_size cur queries
  = match cur ++ queries with [] => [] | _ :: _ => [cur ++ queries] end.
Proof.
  revert cur. induction queries as [|query rest IH]; intros cur Hnever.
  - simpl. rewrite app_nil_r. reflexivity.
  - cbn [batches_from].
    assert (Hlen : length (cur ++ [query]) = S (length cur))
      by (rewrite length_app; simpl; lia).
    destruct (Z.of_nat (length (cur ++ [query])) =? batch_size)%Z eqn:E.
    + apply Z.eqb_eq in E. exfalso.
      apply (Hnever (length (cur ++ [query]))); [simpl; lia | exact E].
    + rewrite IH.
      * now rewrite <- app_assoc.
      * intros m Hm. apply Hnever. simpl. lia.
Qed.

(** A [batch_size] that is zero, negative or larger than the number of
    queries is never reached by the length test: all the queries go out in
    one request, sent by the leftover branch, and no request at all is sent
    for an empty query set. *)
Theorem retrieve_single_request
  (queries : list Query.t) (es_client : Elasticsearch) (index_name : string)
  (size batch_size : Z) :
  (batch_size <= 0 \/ Z.of_nat (length queries) < batch_size)%Z ->
  msearch_log (snd (retrieve queries es_client index_name size batch_size))
  = match queries with
    | [] => []
    | _ :: _ => [call_of index_name size queries]
    end.
Proof.
  intros Hbs. rewrite retrieve_log. unfold batches.
  rewrite batches_from_never_full.
  - simpl. now destruct queries.
  - intros m Hm. simpl in Hm. lia.
Qed.

Lemma retrieve_single_request_witness :
  (0 <= 0 \/ Z.of_nat (length Sample.queries) < 0)%Z
  /\ msearch_log (snd (retrieve Sample.queries Sample.client_up "idx" 10 0))
     = [call_of "idx" 10 Sample.queries].
Proof.
  split; [left; discriminate|].
  apply (retrieve_single_request Sample.queries Sample.client_up "idx" 10 0).
  left. discriminate.
Defined.

Lemma batches_from_bounded (batch_size : Z) (queries cur : list Query.t) :
  (0 < batch_size)%Z ->
  (Z.of_nat (length cur) < batch_size)%Z ->
  forall batch, In batch (batches_from batch_size cur queries) ->
                (Z.of_nat (length batch) <= batch_size)%Z.
Proof.
  intros Hpos. revert cur. induction queries as [|query rest IH];
    intros cur Hcur batch Hin.
  - simpl in Hin. destruct cur; [contradiction|].
    destruct Hin as [<-|[]]. lia.
  - cbn [batches_from] in Hin.
    assert (Hlen : length (cur ++ [query]) = S (length cur))
      by (rewrite length_app; simpl; lia).
    destruct (Z.of_nat (length (cur ++ [query])) =? batch_size)%Z eqn:E.
    + apply Z.eqb_eq in E. destruct Hin as [<-|Hin]; [lia|].
      apply (IH [] ltac:(simpl; lia) batch Hin).
    + apply Z.eqb_neq in E. apply (IH (cur ++ [query])); [lia|exact Hin].
Qed.

Lemma length_requests_of size (batch : list Query.t) :
  length (requests_of size batch) = 2 * length batch.
Proof.
  unfold requests_of.
  induction batch as [|q batch IH]; [reflexivity|].
  cbn [flat_map app length]. rewrite IH. lia.
Qed.

(** No request is empty: each one carries a header and a body for every
    query of its group, at least one; with a positive [batch_size] a request
    never carries more than [batch_size] queries, and every request but the
    last carries exactly [batch_size]. *)
Theorem retrieve_request_sizes
  (queries : list Query.t) (es_client : Elasticsearch) (index_name : string)
  (size batch_size : Z) (j : nat) (call : msearch_call) :
  nth_error (msearch_log
               (snd (retrieve queries es_client index_name size batch_size))) j
  = Some call ->
  1 <= length (bodies (searches call))
  /\ length (searches call) = 2 * length (bodies (searches call))
  /\ ((0 < batch_size)%Z ->
      (Z.of_nat (length (bodies (searches call))) <= batch_size)%Z)
  /\ (S j < length (msearch_log
                      (snd (retrieve queries es_client index_name size batch_size))) ->
      Z.of_nat (length (bodies (searches call))) = batch_size).
Proof.
  rewrite retrieve_log, length_map. intros Hcall.
  apply nth_error_map_inv in Hcall. destruct Hcall as (batch & Hj & ->).
  simpl. rewrite bodies_requests_of, length_map, length_requests_of.
  destruct (batches_from_shape batch_size queries [] j batch Hj) as [Hne Hfull].
  split; [destruct batch; [congruence|simpl; lia]|].
  split; [reflexivity|]. split; [|exact Hfull].
  intros Hpos.
  apply (batches_from_bounded batch_size queries [] Hpos ltac:(simpl; lia)).
  exact (nth_error_In _ _ Hj).
Qed.

Lemma retrieve_request_sizes_witness :
  nth_error (msearch_log
               (snd (retrieve Sample.queries Sample.client_up "idx" 10 2))) 1
  = Some (call_of "idx" 10 [Sample.q3])
  /\ 1 <= length (bodies (searches (call_of "idx" 10 [Sample.q3])))
  /\ length (searches (call_of "idx" 10 [Sample.q3]))
     = 2 * length (bodies (searches (call_of "idx" 10 [Sample.q3]))).
Proof.
  split; [reflexivity|].
  destruct (retrieve_request_sizes Sample.queries Sample.client_up "idx" 10 2 1
              (call_of "idx" 10 [Sample.q3]) eq_refl) as (H1 & H2 & _).
  split; [exact H1 | exact H2].
Defined.

(* ================================================================= *)
(** ** What [retrieve_batch] keeps of a response *)

Lemma fill_batch_dict_leading_hits (query_ids : list string)
  (responses : list response) (batch_dict : ranking) :
  fill_batch_dict (combine query_ids responses) batch_dict
  = (Dict.update batch_dict
       (combine query_ids (map hits_dict (leading_hits responses))),
     if length (leading_hits responses)
        <? Nat.min (length query_ids) (length responses)
     then Some "'hits'" else None).
Proof.
  revert responses batch_dict.
  induction query_ids as [|qid query_ids IH]; intros responses batch_dict.
  - reflexivity.
  - destruct responses as [|[hits|] responses].
    + reflexivity.
    + cbn [combine fill_batch_dict leading_hits map length Nat.min].
      rewrite IH. reflexivity.
    + reflexivity.
Qed.

Lemma NoDup_map_fst_combine {A B : Type} (l : list A) (l' : list B) :
  NoDup l -> NoDup (map fst (combine l l')).
Proof.
  revert l'. induction l as [|a l IH]; intros [|b l'] Hnd; simpl;
    try constructor.
  - inversion Hnd as [|? ? Ha Hnd']; subst. intros Hin. apply Ha.
    apply in_map_iff in Hin. destruct Hin as ([a' b'] & Heq & Hin).
    simpl in Heq. subst a'. exact (in_combine_l _ _ _ _ Hin).
  - inversion Hnd; subst. now apply IH.
Qed.

(** When the request is answered, the mapping [retrieve_batch] returns pairs
    the query ids, in order, with the hits of the response items up to the
    first item without hits: items beyond the number of queries are ignored,
    queries beyond the number of items get no entry, and so do the query of an
    item without hits and every query after it.  ['hits'] is printed exactly
    when such an item stopped the loop; one request was sent. *)
Theorem retrieve_batch_keeps_leading_hits
  (es_client : Elasticsearch) (index_name : string) (query_ids : list string)
  (es_requests : list search) (w : world) (responses : list response) :
  msearch es_client (length (msearch_log w))
          {| searches := es_requests; index := index_name;
             search_type := "dfs_query_then_fetch" |}
  = inr responses ->
  NoDup query_ids ->
  retrieve_batch es_client index_name query_ids es_requests w
  = (combine query_ids (map hits_dict (leading_hits responses)),
     {| msearch_log :=
          msearch_log w
          ++ [{| searches := es_requests; index := index_name;
                 search_type := "dfs_query_then_fetch" |}];
        stdout :=
          stdout w
          ++ (if length (leading_hits responses)
                 <? Nat.min (length query_ids) (length responses)
              then ["'hits'"] else []) |}).
Proof.
  intros Hm Hnd. unfold retrieve_batch. rewrite Hm.
  rewrite fill_batch_dict_leading_hits.
  fold (Dict.of_items (combine query_ids (map hits_dict (leading_hits responses)))).
  rewrite DictFacts.of_items_NoDup by (now apply NoDup_map_fst_combine).
  destruct (length (leading_hits responses)
            <? Nat.min (length query_ids) (length responses)).
  - reflexivity.
  - unfold sent. now rewrite app_nil_r.
Qed.

Lemma retrieve_batch_keeps_leading_hits_witness :
  msearch {| msearch := fun _ _ => inr [Hits Sample.hits; NoHits; Hits []] |}
          (length (msearch_log world0))
          {| searches := requests_of 10 Sample.queries; index := "idx";
             search_type := "dfs_query_then_fetch" |}
  = inr [Hits Sample.hits; NoHits; Hits []]
  /\ NoDup ["q1"; "q2"; "q3"]
  /\ retrieve_batch {| msearch := fun _ _ => inr [Hits Sample.hits; NoHits; Hits []] |}
                    "idx" ["q1"; "q2"; "q3"] (requests_of 10 Sample.queries) world0
     = ([("q1", hits_dict Sample.hits)],
        {| msearch_log := [call_of "idx" 10 Sample.queries];
           stdout := ["'hits'"] |}).
Proof.
  split; [reflexivity|]. split; [exact sample_ids_distinct|].
  exact (retrieve_batch_keeps_leading_hits
           {| msearch := fun _ _ => inr [Hits Sample.hits; NoHits; Hits []] |}
           "idx" ["q1"; "q2"; "q3"] (requests_of 10 Sample.queries) world0
           [Hits Sample.hits; NoHits; Hits []] eq_refl sample_ids_distinct).
Defined.

(* ================================================================= *)
(** ** What the mapping of [retrieve] holds *)

Lemma get_merge_absent k (dicts : list ranking) (acc : ranking) :
  Forall (fun d => NoDup (Dict.keys d)) dicts ->
  (forall d, In d dicts -> ~ In k (Dict.keys d)) ->
  Dict.get k (merge acc dicts) = Dict.get k acc.
Proof.
  revert acc. induction dicts as [|d dicts IH]; intros acc Hnd Habs.
  - reflexivity.
  - inversion Hnd; subst. simpl. rewrite IH; [|assumption|auto with datatypes].
    rewrite get_update_dict by assumption.
    destruct (Dict.get k d) eqn:E; [|reflexivity].
    exfalso. apply (Habs d (or_introl eq_refl)).
    apply DictFacts.in_keys_get. eauto.
Qed.

(** A key that only one of the merged mappings holds has the value of that
    mapping. *)
Lemma get_merge_only k (dicts : list ranking) :
  Forall (fun d => NoDup (Dict.keys d)) dicts ->
  forall j d acc,
    nth_error dicts j = Some d ->
    In k (Dict.keys d) ->
    (forall j' d', j' <> j -> nth_error dicts j' = Some d' ->
                   ~ In k (Dict.keys d')) ->
    Dict.get k (merge acc dicts) = Dict.get k d.
Proof.
  induction dicts as [|d0 dicts IH]; intros Hnd j d acc Hj Hin Hothers.
  - now destruct j.
  - inversion Hnd as [|? ? Hd0 Hnd']; subst. destruct j as [|j]; simpl in Hj.
    + injection Hj as ->. simpl. rewrite get_merge_absent.
      * rewrite get_update_dict by assumption.
        apply DictFacts.in_keys_get in Hin. destruct Hin as [v ->]. reflexivity.
      * exact Hnd'.
      * intros d' Hd'. apply In_nth_error in Hd'. destruct Hd' as [j' Hj'].
        apply (Hothers (S j') d'); [discriminate|exact Hj'].
    + simpl. apply (IH Hnd' j d _ Hj Hin).
      intros j' d' Hne Hj'. apply (Hothers (S j') d'); [congruence|exact Hj'].
Qed.

Lemma NoDup_concat_member {A B : Type} (f : A -> B) (groups : list (list A)) g :
  NoDup (map f (concat groups)) -> In g groups -> NoDup (map f g).
Proof.
  induction groups as [|g0 groups IH]; simpl; [tauto|].
  rewrite map_app. intros Hnd [->|Hin].
  - exact (NoDup_app_remove_r _ _ Hnd).
  - apply IH; [|exact Hin]. exact (NoDup_app_remove_l _ _ Hnd).
Qed.

Lemma nth_error_combine {A B : Type} (l : list A) (l' : list B) i a b :
  nth_error l i = Some a -> nth_error l' i = Some b ->
  nth_error (combine l l') i = Some (a, b).
Proof.
  revert l l'. induction i as [|i IH]; intros [|x l] [|y l']; simpl;
    try discriminate.
  - now intros [= ->] [= ->].
  - apply IH.
Qed.

(** With distinct query ids, a query whose response item carries hits, all
    the items before it in its batch carrying hits too, has in the mapping of
    [retrieve] the score map of exactly those hits, whatever happens to the
    other batches. *)
Theorem retrieve_entry_is_paired_response
  (queries : list Query.t) (es_client : Elasticsearch) (index_name : string)
  (size batch_size : Z) (j i : nat) (batch : list Query.t)
  (responses : list response) (query : Query.t) (hits : list hit) :
  NoDup (map Query._id queries) ->
  nth_error (batches batch_size queries) j = Some batch ->
  msearch es_client j (call_of index_name size batch) = inr responses ->
  nth_error batch i = Some query ->
  nth_error (leading_hits responses) i = Some hits ->
  Dict.get (Query._id query)
           (fst (retrieve queries es_client index_name size batch_size))
  = Some (hits_dict hits).
Proof.
  intros Hnd Hj Hm Hq Hhits.
  rewrite <- (concat_batches batch_size queries) in Hnd.
  assert (Hbatch : NoDup (map Query._id batch))
    by (exact (NoDup_concat_member _ _ _ Hnd (nth_error_In _ _ Hj))).
  assert (Hd : fst (batch_outcome es_client index_name size j batch)
               = combine (map Query._id batch)
                         (map hits_dict (leading_hits responses))).
  { unfold batch_outcome. rewrite Hm, fill_batch_dict_leading_hits. simpl.
    fold (Dict.of_items (combine (map Query._id batch)
                                 (map hits_dict (leading_hits responses)))).
    apply DictFacts.of_items_NoDup. now apply NoDup_map_fst_combine. }
  assert (Hentry : In (Query._id query, hits_dict hits)
                      (fst (batch_outcome es_client index_name size j batch))).
  { rewrite Hd. eapply nth_error_In. apply nth_error_combine.
    - exact (map_nth_error Query._id i batch Hq).
    - exact (map_nth_error hits_dict i _ Hhits). }
  rewrite retrieve_result.
  rewrite (get_merge_only (Query._id query) _
             ltac:(apply Forall_forall; intros d Hin;
                   apply in_map_iff in Hin; destruct Hin as (o & <- & Ho);
                   apply in_outcomes_from in Ho;
                   destruct Ho as (j' & b & _ & ->); apply batch_outcome_NoDup)
             j (fst (batch_outcome es_client index_name size j batch))).
  - apply DictFacts.in_items_get; [apply batch_outcome_NoDup | exact Hentry].
  - apply map_nth_error.
    exact (nth_error_outcomes_from es_client index_name size _ 0 j batch Hj).
  - change (Query._id query) with (fst (Query._id query, hits_dict hits)).
    now apply in_map.
  - intros j' d' Hne Hj' Hin.
    apply nth_error_map_inv in Hj'. destruct Hj' as (o & Ho & ->).
    destruct (nth_error (batches batch_size queries) j') as [other|] eqn:Hother.
    + rewrite (nth_error_outcomes_from es_client index_name size _ 0 j' other Hother)
        in Ho.
      injection Ho as <-. simpl in Hin. apply batch_outcome_keys in Hin.
      exact (NoDup_concat_disjoint Query._id _ Hnd j' j other batch
               (Query._id query) Hother Hj Hne Hin
               (in_map Query._id _ _ (nth_error_In _ _ Hq))).
    + apply nth_error_None in Hother.
      assert (Hlt : j' < length (outcomes_from es_client index_name size 0
                                               (batches batch_size queries)))
        by (apply nth_error_Some; congruence).
      rewrite length_outcomes_from in Hlt. lia.
Qed.

Lemma retrieve_entry_is_paired_response_witness :
  NoDup (map Query._id Sample.queries)
  /\ nth_error (batches 2 Sample.queries) 1 = Some [Sample.q3]
  /\ msearch (Sample.client_failing_at 0) 1 (call_of "idx" 10 [Sample.q3])
     = inr [Hits Sample.hits]
  /\ Dict.get "q3" (fst (retrieve Sample.queries (Sample.client_failing_at 0)
                                  "idx" 10 2))
     = Some (hits_dict Sample.hits).
Proof.
  split; [exact sample_ids_distinct|]. split; [reflexivity|].
  split; [reflexivity|].
  exact (retrieve_entry_is_paired_response Sample.queries
           (Sample.client_failing_at 0) "idx" 10 2 1 0 [Sample.q3]
           [Hits Sample.hits] Sample.q3 Sample.hits
           sample_ids_distinct eq_refl eq_refl eq_refl eq_refl).
Defined.

Lemma merge_fresh (dicts : list ranking) (acc : ranking) :
  NoDup (Dict.keys acc ++ concat (map Dict.keys dicts)) ->
  merge acc dicts = acc ++ concat dicts.
Proof.
  revert acc. induction dicts as [|d dicts IH]; intros acc Hnd; simpl.
  - now rewrite app_nil_r.
  - simpl in Hnd. rewrite app_assoc in Hnd.
    assert (Hupd : Dict.update acc (Dict.items d) = acc ++ d).
    { apply DictFacts.update_fresh.
      - exact (NoDup_app_remove_l _ _ (NoDup_app_remove_r _ _ Hnd)).
      - intros k Hk Hacc.
        exact (NoDup_app_disjoint _ _ k (NoDup_app_remove_r _ _ Hnd) Hacc Hk). }
    rewrite Hupd, IH.
    + now rewrite <- app_assoc.
    + unfold Dict.keys in *. now rewrite map_app.
Qed.

Lemma keys_concat {V : Type} (dicts : list (Dict.t V)) :
  Dict.keys (concat dicts) = concat (map Dict.keys dicts).
Proof. unfold Dict.keys. apply concat_map. Qed.

Lemma keys_outcomes_answered (es_client : Elasticsearch) index_name size
  (groups : list (list Query.t)) (n : nat) :
  (forall j batch, nth_error groups j = Some batch ->
                   NoDup (map Query._id batch)
                   /\ answered es_client (n + j) (call_of index_name size batch)) ->
  map Dict.keys (map fst (outcomes_from es_client index_name size n groups))
  = map (map Query._id) groups.
Proof.
  revert n. induction groups as [|batch groups IH]; intros n Hall.
  - reflexivity.
  - cbn [outcomes_from map]. f_equal.
    + destruct (Hall 0 batch eq_refl) as [Hnd (responses & Hm & Hlen & Hhits)].
      rewrite Nat.add_0_r in Hm. unfold batch_outcome. rewrite Hm.
      rewrite fill_batch_dict_leading_hits. simpl fst.
      fold (Dict.of_items (combine (map Query._id batch)
                                   (map hits_dict (leading_hits responses)))).
      rewrite DictFacts.of_items_NoDup by (now apply NoDup_map_fst_combine).
      apply map_fst_combine_same_length.
      simpl in Hlen. rewrite bodies_requests_of, length_map in Hlen.
      rewrite !length_map. rewrite <- Hlen. clear -Hhits.
      induction Hhits as [|r rs [hits ->] _ IHr]; simpl; [reflexivity|].
      now rewrite IHr.
    + apply IH. intros j b Hj. specialize (Hall (S j) b Hj).
      now rewrite Nat.add_succ_r in Hall.
Qed.

(** With distinct query ids and no failing request, the mapping of
    [retrieve] lists the queries in their input order. *)
Theorem retrieve_keeps_query_order
  (queries : list Query.t) (es_client : Elasticsearch) (index_name : string)
  (size batch_size : Z) :
  NoDup (map Query._id queries) ->
  no_batch_request_fails es_client
    (msearch_log (snd (retrieve queries es_client index_name size batch_size))) ->
  Dict.keys (fst (retrieve queries es_client index_name size batch_size))
  = map Query._id queries.
Proof.
  intros Hnd Hok. rewrite retrieve_log in Hok. rewrite retrieve_result.
  assert (Hkeys : map Dict.keys
                    (map fst (outcomes_from es_client index_name size 0
                                            (batches batch_size queries)))
                  = map (map Query._id) (batches batch_size queries)).
  { apply keys_outcomes_answered. intros j batch Hj. split.
    - rewrite <- (concat_batches batch_size queries) in Hnd.
      exact (NoDup_concat_member _ _ _ Hnd (nth_error_In _ _ Hj)).
    - apply Hok. simpl. now apply map_nth_error. }
  rewrite merge_fresh.
  - simpl. rewrite keys_concat, Hkeys, <- concat_map.
    now rewrite concat_batches.
  - simpl. rewrite Hkeys, <- concat_map. now rewrite concat_batches.
Qed.

Lemma retrieve_keeps_query_order_witness :
  NoDup (map Query._id Sample.queries)
  /\ no_batch_request_fails Sample.client_up
       (msearch_log (snd (retrieve Sample.queries Sample.client_up "idx" 10 2)))
  /\ Dict.keys (fst (retrieve Sample.queries Sample.client_up "idx" 10 2))
     = ["q1"; "q2"; "q3"].
Proof.
  split; [exact sample_ids_distinct|]. split; [apply client_up_answers|].
  exact (retrieve_keeps_query_order Sample.queries Sample.client_up "idx" 10 2
           sample_ids_distinct (client_up_answers _)).
Defined.

(** [retrieve] prints at most one line per request, and every line it prints
    is either the text of an exception a request raised or the text of the
    [KeyError] for a response item without hits. *)
Theorem retrieve_prints_one_line_per_failure
  (queries : list Query.t) (es_client : Elasticsearch) (index_name : string)
  (size batch_size : Z) :
  length (stdout (snd (retrieve queries es_client index_name size batch_size)))
  <= length (msearch_log
               (snd (retrieve queries es_client index_name size batch_size)))
  /\ forall line,
       In line (stdout (snd (retrieve queries es_client index_name size
                                      batch_size))) ->
       line = "'hits'"
       \/ exists j batch,
            nth_error (batches batch_size queries) j = Some batch
            /\ msearch es_client j (call_of index_name size batch) = inl line.
Proof.
  rewrite retrieve_stdout, retrieve_log, length_map. split.
  - rewrite <- (length_outcomes_from es_client index_name size
                  (batches batch_size queries) 0).
    generalize (outcomes_from es_client index_name size 0
                              (batches batch_size queries)).
    induction l as [|[d [e|]] l IH]; simpl; lia.
  - intros line Hin. apply in_flat_map in Hin. destruct Hin as (o & Ho & Hline).
    apply in_outcomes_from in Ho. destruct Ho as (j & batch & Hj & ->).
    simpl in Hline. unfold printed, batch_outcome in Hline.
    destruct (msearch es_client j (call_of index_name size batch))
      as [e|responses] eqn:Hm.
    + simpl in Hline. destruct Hline as [<-|[]]. right. eauto.
    + rewrite fill_batch_dict_leading_hits in Hline. simpl in Hline.
      destruct (length (leading_hits responses) <? _); simpl in Hline;
        [|contradiction].
      destruct Hline as [<-|[]]. now left.
Qed.

(* ================================================================= *)
(** ** Dict comprehensions: the last pair under a key stays *)

Lemma get_pairs_find {A V : Type} (key : A -> string) (val : A -> V) l k :
  Dict.get k (map (fun a => (key a, val a)) l)
  = option_map val (find (fun a => String.eqb k (key a)) l).
Proof.
  induction l as [|a l IH]; simpl; [reflexivity|].
  destruct (String.eqb k (key a)); [reflexivity|exact IH].
Qed.

Lemma get_of_items_last {A V : Type} (key : A -> string) (val : A -> V) l k :
  Dict.get k (Dict.of_items (map (fun a => (key a, val a)) l))
  = option_map val (find (fun a => String.eqb k (key a)) (rev l)).
Proof.
  unfold Dict.of_items. rewrite DictFacts.get_update, <- map_rev.
  rewrite (get_pairs_find key val). simpl. now destruct (find _ _).
Qed.

(** The score map built from a list of hits has one entry per distinct hit
    id, in the order of first occurrence; a hit id that occurs more than once
    keeps the score of its last hit; hits with distinct ids are kept as they
    are. *)
Theorem hits_dict_last_score_wins (hits : list hit) :
  NoDup (Dict.keys (hits_dict hits))
  /\ (forall id, In id (Dict.keys (hits_dict hits)) <-> In id (map hit_id hits))
  /\ (forall id,
        Dict.get id (hits_dict hits)
        = option_map hit_score
            (find (fun h => String.eqb id (hit_id h)) (rev hits)))
  /\ Dict.len (hits_dict hits) <= length hits
  /\ (NoDup (map hit_id hits) ->
      hits_dict hits = map (fun h => (hit_id h, hit_score h)) hits).
Proof.
  unfold hits_dict. repeat split.
  - apply DictFacts.NoDup_keys_of_items.
  - rewrite DictFacts.in_keys_of_items, map_map. simpl. tauto.
  - rewrite DictFacts.in_keys_of_items, map_map. simpl. tauto.
  - intros id. apply (get_of_items_last hit_id hit_score).
  - unfold Dict.len.
    pose proof (DictFacts.length_of_items_le
                  (map (fun h => (hit_id h, hit_score h)) hits)) as H.
    now rewrite length_map in H.
  - intros Hnd. apply DictFacts.of_items_NoDup. now rewrite map_map.
Qed.

(** With distinct ids every query and every corpus row can be looked up by
    its id in the helper dicts: a query gives its text, a corpus row its title,
    a space and its text.  In general a lookup gives the last row under the
    id, and fails exactly for the ids of no row. *)
Theorem helper_dicts_lookup (queries : list Query.t) (corpus : list Doc.t) :
  (forall qid,
     Dict.get qid (queries_dict queries)
     = option_map Query.text
         (find (fun q => String.eqb qid (Query._id q)) (rev queries)))
  /\ (forall doc_id,
        Dict.get doc_id (corpus_dict corpus)
        = option_map (fun doc => (Doc.title doc ++ " " ++ Doc.text doc)%string)
            (find (fun doc => String.eqb doc_id (Doc._id doc)) (rev corpus)))
  /\ (NoDup (map Query._id queries) ->
      forall q, In q queries ->
                Dict.get (Query._id q) (queries_dict queries) = Some (Query.text q))
  /\ (NoDup (map Doc._id corpus) ->
      forall doc, In doc corpus ->
                  Dict.get (Doc._id doc) (corpus_dict corpus)
                  = Some (Doc.title doc ++ " " ++ Doc.text doc)%string)
  /\ (forall qid, Dict.get qid (queries_dict queries) = None
                  <-> ~ In qid (map Query._id queries))
  /\ (forall doc_id, Dict.get doc_id (corpus_dict corpus) = None
                     <-> ~ In doc_id (map Doc._id corpus)).
Proof.
  split; [|split; [|split; [|split; [|split]]]].
  - intros qid. apply (get_of_items_last Query._id Query.text).
  - intros doc_id. apply (get_of_items_last Doc._id title_and_text).
  - intros Hnd q Hq. unfold queries_dict.
    rewrite DictFacts.of_items_NoDup by (now rewrite map_map).
    apply DictFacts.in_items_get.
    + unfold Dict.keys. now rewrite map_map.
    + apply in_map_iff. now exists q.
  - intros Hnd doc Hdoc. unfold corpus_dict.
    rewrite DictFacts.of_items_NoDup by (now rewrite map_map).
    apply DictFacts.in_items_get.
    + unfold Dict.keys. now rewrite map_map.
    + apply in_map_iff. now exists doc.
  - intros qid. rewrite DictFacts.get_None, keys_queries_dict. tauto.
  - intros doc_id. rewrite DictFacts.get_None, keys_corpus_dict. tauto.
Qed.

(* ================================================================= *)
(** ** The judgments built by [download_queries_and_qrels] *)

Lemma find_app_first {A : Type} (f : A -> bool) (l l' : list A) :
  find f (l ++ l') = match find f l with Some x => Some x | None => find f l' end.
Proof.
  induction l as [|a l IH]; simpl; [reflexivity|].
  destruct (f a); [reflexivity|exact IH].
Qed.

Lemma judged_score_add_qrel (acc : Dict.t (Dict.t Z)) (r : Qrel.t) qid doc_id :
  judged_score (add_qrel acc r) qid doc_id
  = if String.eqb qid (Qrel.query_id r) && String.eqb doc_id (Qrel.corpus_id r)
    then Some (Qrel.score r)
    else judged_score acc qid doc_id.
Proof.
  unfold judged_score, add_qrel. rewrite DictFacts.get_set.
  destruct (String.eqb_spec qid (Qrel.query_id r)) as [->|Hne]; simpl.
  - rewrite DictFacts.get_set.
    destruct (String.eqb doc_id (Qrel.corpus_id r)); [reflexivity|].
    now destruct (Dict.get (Qrel.query_id r) acc).
  - reflexivity.
Qed.

Lemma judged_score_fold (qrels_raw : list Qrel.t) (acc : Dict.t (Dict.t Z)) qid doc_id :
  judged_score (fold_left add_qrel qrels_raw acc) qid doc_id
  = match last_judgment qrels_raw qid doc_id with
    | Some r => Some (Qrel.score r)
    | None => judged_score acc qid doc_id
    end.
Proof.
  unfold last_judgment. revert acc.
  induction qrels_raw as [|r raw IH]; intros acc; simpl.
  - reflexivity.
  - rewrite IH, find_app_first, judged_score_add_qrel.
    destruct (find _ (rev raw)); [reflexivity|]. simpl.
    now destruct (String.eqb qid (Qrel.query_id r)
                  && String.eqb doc_id (Qrel.corpus_id r)).
Qed.

Lemma judged_score_download (qrels_raw : list Qrel.t)
  (queries_raw : list Query.t) (qid doc_id : string) :
  judged_score (snd (download_queries_and_qrels qrels_raw queries_raw)) qid doc_id
  = option_map Qrel.score (last_judgment qrels_raw qid doc_id).
Proof. simpl. rewrite judged_score_fold. now destruct (last_judgment _ _ _). Qed.

Lemma last_judgment_none (qrels_raw : list Qrel.t) (qid doc_id : string) :
  last_judgment qrels_raw qid doc_id = None
  <-> forall r, In r qrels_raw ->
                ~ (Qrel.query_id r = qid /\ Qrel.corpus_id r = doc_id).
Proof.
  unfold last_judgment. split.
  - intros E r Hr [Hq Hd].
    pose proof (find_none _ _ E r (proj1 (in_rev _ _) Hr)) as Hf. simpl in Hf.
    subst. rewrite !String.eqb_refl in Hf. discriminate.
  - intros Hall.
    destruct (find _ (rev qrels_raw)) as [r'|] eqn:E; [|reflexivity].
    apply find_some in E. destruct E as [Hin Heq].
    apply andb_true_iff in Heq. destruct Heq as [Hq Hd].
    apply String.eqb_eq in Hq, Hd. exfalso.
    apply (Hall r'); [now apply in_rev|]. now subst.
Qed.

(** [qrels[qid][doc_id]] is the score of the last raw judgment for that
    query and document, and the pair has no entry when the raw judgments hold
    no row for it. *)
Theorem qrels_hold_last_judgment (qrels_raw : list Qrel.t)
  (queries_raw : list Query.t) (qid doc_id : string) :
  judged_score (snd (download_queries_and_qrels qrels_raw queries_raw)) qid doc_id
  = option_map Qrel.score (last_judgment qrels_raw qid doc_id)
  /\ (judged_score (snd (download_queries_and_qrels qrels_raw queries_raw))
                   qid doc_id = None
      <-> forall r, In r qrels_raw ->
                    ~ (Qrel.query_id r = qid /\ Qrel.corpus_id r = doc_id)).
Proof.
  split; [apply judged_score_download|].
  rewrite judged_score_download, <- last_judgment_none.
  destruct (last_judgment qrels_raw qid doc_id); simpl; split; congruence.
Qed.

Lemma set_not_empty {V : Type} k (v : V) (d : Dict.t V) : Dict.set k v d <> [].
Proof.
  destruct d as [|[k0 v0] d]; simpl; [discriminate|].
  destruct (String.eqb k k0); discriminate.
Qed.

Lemma add_qrel_well_formed (acc : Dict.t (Dict.t Z)) (r : Qrel.t) :
  qrels_well_formed acc -> qrels_well_formed (add_qrel acc r).
Proof.
  intros [Hnd Hall]. unfold add_qrel. split.
  - now apply DictFacts.NoDup_keys_set.
  - intros qid judged Hin. apply in_set_inv in Hin. destruct Hin as [[= -> ->]|Hin].
    + split; [|apply set_not_empty].
      apply DictFacts.NoDup_keys_set.
      destruct (Dict.get (Qrel.query_id r) acc) as [inner|] eqn:E.
      * apply DictFacts.get_Some_in in E. now apply (Hall _ _ E).
      * constructor.
    + exact (Hall qid judged Hin).
Qed.

(** The judgments are a dict of dicts: no query id and, within a query, no
    document id occurs twice; every query of [qrels] has at least one judged
    document; and every raw judgment is found under its query and document. *)
Theorem qrels_are_well_formed (qrels_raw : list Qrel.t) (queries_raw : list Query.t) :
  NoDup (Dict.keys (snd (download_queries_and_qrels qrels_raw queries_raw)))
  /\ (forall qid judged,
        Dict.get qid (snd (download_queries_and_qrels qrels_raw queries_raw))
        = Some judged ->
        NoDup (Dict.keys judged) /\ judged <> Dict.empty)
  /\ (forall r, In r qrels_raw ->
        exists score,
          judged_score (snd (download_queries_and_qrels qrels_raw queries_raw))
                       (Qrel.query_id r) (Qrel.corpus_id r) = Some score).
Proof.
  assert (Hwf : qrels_well_formed
                  (snd (download_queries_and_qrels qrels_raw queries_raw))).
  { simpl. assert (H0 : qrels_well_formed (@Dict.empty (Dict.t Z))).
    { split; [constructor|intros ? ? []]. }
    revert H0. generalize (@Dict.empty (Dict.t Z)).
    induction qrels_raw as [|r raw IH]; intros acc Hacc; simpl; [exact Hacc|].
    apply IH. now apply add_qrel_well_formed. }
  destruct Hwf as [Hnd Hall]. split; [exact Hnd|]. split.
  - intros qid judged Hget. apply (Hall qid judged).
    now apply DictFacts.get_Some_in.
  - intros r Hr.
    destruct (judged_score (snd (download_queries_and_qrels qrels_raw queries_raw))
                           (Qrel.query_id r) (Qrel.corpus_id r)) as [s|] eqn:E;
      [eauto|].
    exfalso. rewrite judged_score_download in E.
    destruct (last_judgment qrels_raw (Qrel.query_id r) (Qrel.corpus_id r))
      eqn:El; [discriminate|].
    apply (proj1 (last_judgment_none _ _ _) El r Hr). split; reflexivity.
Qed.

(* ================================================================= *)
(** ** How the reranking loop fails, and what it does not read *)

Lemma doc_texts_of_key_error (cd : Dict.t string) doc_ids key :
  doc_texts_of cd doc_ids = KeyError key ->
  In key doc_ids /\ Dict.get key cd = None.
Proof.
  induction doc_ids as [|doc_id rest IH]; simpl; [discriminate|].
  unfold bind, getitem.
  destruct (Dict.get doc_id cd) as [t|] eqn:E.
  - destruct (doc_texts_of cd rest) as [ts|k]; [discriminate|].
    intros [= ->]. destruct (IH eq_refl). auto.
  - intros [= <-]. auto.
Qed.

Lemma rerank_query_key_error reranking_model (qd cd : Dict.t string) qid
  (bm25_res : scores) key :
  rerank_query reranking_model qd cd qid bm25_res = KeyError key ->
  (key = qid /\ Dict.get qid qd = None)
  \/ (In key (Dict.keys bm25_res) /\ Dict.get key cd = None).
Proof.
  unfold rerank_query, bind, getitem, Dict.items.
  destruct (Dict.get qid qd) as [query_text|] eqn:Eq.
  - destruct (length (map fst bm25_res) =? 0); [discriminate|].
    destruct (doc_texts_of cd (map fst bm25_res)) as [ts|k] eqn:Et;
      [discriminate|].
    intros [= ->]. right. now apply doc_texts_of_key_error.
  - intros [= <-]. now left.
Qed.

Lemma rerank_loop_key_error reranking_model (qd cd : Dict.t string) todo acc key :
  rerank_loop reranking_model qd cd todo acc = KeyError key ->
  exists qid bm25_res,
    In (qid, bm25_res) todo
    /\ rerank_query reranking_model qd cd qid bm25_res = KeyError key.
Proof.
  revert acc. induction todo as [|[qid bm25_res] todo IH]; intros acc; simpl.
  - discriminate.
  - unfold bind.
    destruct (rerank_query reranking_model qd cd qid bm25_res) as [res|k] eqn:Eq.
    + intros H. destruct (IH _ H) as (q & r & Hin & Hq). eauto 6.
    + intros [= ->]. eauto 6.
Qed.

Lemma reranking_key_error reranking_model queries corpus (bm25_responses : ranking) key :
  results_after_reranking reranking_model queries corpus bm25_responses
  = KeyError key ->
  (In key (Dict.keys bm25_responses) /\ ~ In key (map Query._id queries))
  \/ (exists qid bm25_res,
        In (qid, bm25_res) (Dict.items bm25_responses)
        /\ In key (Dict.keys bm25_res)
        /\ ~ In key (map Doc._id corpus)).
Proof.
  intros H. apply rerank_loop_key_error in H.
  destruct H as (qid & bm25_res & Hin & Hq).
  apply rerank_query_key_error in Hq. destruct Hq as [[-> Hq]|[Hk Hc]].
  - left. split.
    + change qid with (fst (qid, bm25_res)). now apply in_map.
    + apply DictFacts.get_None in Hq. now rewrite keys_queries_dict in Hq.
  - right. exists qid, bm25_res. split; [exact Hin|]. split; [exact Hk|].
    apply DictFacts.get_None in Hc. now rewrite keys_corpus_dict in Hc.
Qed.

(** The reranking loop can only stop on a missing key, and the key it
    reports is really missing: either a query id of the first-stage result
    that no query has, or a candidate document id that no corpus row has. *)
Theorem reranking_fails_only_on_missing_key
  (reranking_model : CrossEncoder) (queries : list Query.t) (corpus : list Doc.t)
  (bm25_responses : ranking) (key : string) :
  results_after_reranking reranking_model queries corpus bm25_responses
  = KeyError key ->
  (In key (Dict.keys bm25_responses) /\ ~ In key (map Query._id queries))
  \/ (exists qid bm25_res,
        In (qid, bm25_res) (Dict.items bm25_responses)
        /\ In key (Dict.keys bm25_res)
        /\ ~ In key (map Doc._id corpus)).
Proof. apply reranking_key_error. Qed.

Lemma reranking_fails_only_on_missing_key_witness :
  results_after_reranking Sample.model Sample.queries [Sample.d1]
                          Sample.bm25_responses = KeyError "d2"
  /\ ((In "d2" (Dict.keys Sample.bm25_responses)
       /\ ~ In "d2" (map Query._id Sample.queries))
      \/ (exists qid bm25_res,
            In (qid, bm25_res) (Dict.items Sample.bm25_responses)
            /\ In "d2" (Dict.keys bm25_res)
            /\ ~ In "d2" (map Doc._id [Sample.d1]))).
Proof.
  split; [reflexivity|].
  exact (reranking_fails_only_on_missing_key Sample.model Sample.queries
           [Sample.d1] Sample.bm25_responses "d2" eq_refl).
Defined.

(** Reranking what [retrieve] returned for the same queries never fails on a
    query id: it can only stop on a document id that the backend returned and
    the corpus does not hold, and it runs to its end when every returned
    document id is in the corpus. *)
Theorem reranking_after_retrieve
  (reranking_model : CrossEncoder) (queries : list Query.t) (corpus : list Doc.t)
  (es_client : Elasticsearch) (index_name : string) (size batch_size : Z) :
  (forall key,
     results_after_reranking reranking_model queries corpus
       (fst (retrieve queries es_client index_name size batch_size))
     = KeyError key ->
     exists qid bm25_res,
       Dict.get qid (fst (retrieve queries es_client index_name size batch_size))
       = Some bm25_res
       /\ In key (Dict.keys bm25_res)
       /\ ~ In key (map Doc._id corpus))
  /\ ((forall qid bm25_res doc_id,
         Dict.get qid (fst (retrieve queries es_client index_name size batch_size))
         = Some bm25_res ->
         In doc_id (Dict.keys bm25_res) -> In doc_id (map Doc._id corpus)) ->
      exists reranked,
        results_after_reranking reranking_model queries corpus
          (fst (retrieve queries es_client index_name size batch_size))
        = Ok reranked).
Proof.
  pose proof (retrieve_keys_NoDup queries es_client index_name size batch_size)
    as Hnd.
  split.
  - intros key Herr. apply reranking_key_error in Herr.
    destruct Herr as [[Hk Hq]|(qid & bm25_res & Hin & Hk & Hc)].
    + exfalso. apply Hq. now apply retrieve_keys_are_query_ids in Hk.
    + exists qid, bm25_res. split; [|auto].
      now apply DictFacts.in_items_get.
  - intros Hdocs. apply rerank_loop_total. intros qid bm25_res Hin. split.
    + apply keys_queries_dict.
      apply (retrieve_keys_are_query_ids queries es_client index_name size
                                         batch_size).
      change qid with (fst (qid, bm25_res)). now apply in_map.
    + intros doc_id Hd. apply keys_corpus_dict.
      apply (Hdocs qid bm25_res doc_id); [|exact Hd].
      now apply DictFacts.in_items_get.
Qed.

Lemma rerank_query_same_ids reranking_model (qd cd : Dict.t string) qid
  (r1 r2 : scores) :
  Dict.keys r1 = Dict.keys r2 ->
  rerank_query reranking_model qd cd qid r1
  = rerank_query reranking_model qd cd qid r2.
Proof.
  unfold rerank_query, Dict.items, Dict.keys. now intros ->.
Qed.

(** The reranked result does not depend on the first-stage scores: two
    first-stage results with the same query ids and, for each query, the same
    candidate ids in the same order give the same outcome. *)
Theorem reranking_ignores_first_stage_scores
  (reranking_model : CrossEncoder) (queries : list Query.t) (corpus : list Doc.t)
  (bm25_responses bm25_responses' : ranking) :
  map (fun item => (fst item, Dict.keys (snd item))) (Dict.items bm25_responses)
  = map (fun item => (fst item, Dict.keys (snd item))) (Dict.items bm25_responses') ->
  results_after_reranking reranking_model queries corpus bm25_responses
  = results_after_reranking reranking_model queries corpus bm25_responses'.
Proof.
  unfold results_after_reranking, Dict.items.
  generalize (@Dict.empty scores). revert bm25_responses'.
  induction bm25_responses as [|[qid r1] rest IH]; intros [|[qid' r2] rest'] acc;
    simpl; try discriminate; [reflexivity|].
  intros [= -> Hkeys Hrest].
  rewrite (rerank_query_same_ids _ _ _ _ r1 r2 Hkeys).
  unfold bind. destruct (rerank_query _ _ _ qid' r2); [|reflexivity].
  now apply IH.
Qed.

Lemma reranking_ignores_first_stage_scores_witness :
  map (fun item => (fst item, Dict.keys (snd item)))
      (Dict.items Sample.bm25_responses)
  = map (fun item => (fst item, Dict.keys (snd item)))
        (Dict.items [("q1", [("d1", 0 # 1); ("d2", 9 # 1)]); ("q2", [])])
  /\ results_after_reranking Sample.model Sample.queries Sample.corpus
                             Sample.bm25_responses
     = results_after_reranking Sample.model Sample.queries Sample.corpus
                               [("q1", [("d1", 0 # 1); ("d2", 9 # 1)]); ("q2", [])].
Proof.
  split; [reflexivity|].
  exact (reranking_ignores_first_stage_scores Sample.model Sample.queries
           Sample.corpus Sample.bm25_responses
           [("q1", [("d1", 0 # 1); ("d2", 9 # 1)]); ("q2", [])] eq_refl).
Defined.

(* ================================================================= *)
(** ** Ordering by score and the top [k] *)

Lemma insert_desc_Permutation x l : Permutation (insert_desc x l) (x :: l).
Proof.
  induction l as [|y l IH]; simpl; [reflexivity|].
  destruct (Qle_bool (snd y) (snd x)); [reflexivity|].
  rewrite IH. apply perm_swap.
Qed.

Lemma sorted_desc_Permutation l : Permutation (sorted_desc l) l.
Proof.
  induction l as [|x l IH]; simpl; [constructor|].
  rewrite insert_desc_Permutation. now constructor.
Qed.

Lemma insert_desc_sorted x l :
  StronglySorted score_ge l -> StronglySorted score_ge (insert_desc x l).
Proof.
  induction 1 as [|y l Hl IH Hy]; simpl.
  - repeat constructor.
  - destruct (Qle_bool (snd y) (snd x)) eqn:E.
    + apply Qle_bool_iff in E. constructor; [now constructor|].
      constructor; [exact E|].
      rewrite Forall_forall in *. intros z Hz. unfold score_ge in *.
      eapply Qle_trans; [apply (Hy z Hz)|exact E].
    + assert (Hlt : (snd x < snd y)%Q).
      { apply Qnot_le_lt. intros H. apply Qle_bool_iff in H. congruence. }
      constructor; [exact IH|].
      rewrite Forall_forall in *. intros z Hz.
      apply (Permutation_in _ (insert_desc_Permutation x l)) in Hz.
      destruct Hz as [<-|Hz]; [now apply Qlt_le_weak | now apply Hy].
Qed.

Lemma sorted_desc_sorted l : StronglySorted score_ge (sorted_desc l).
Proof.
  induction l as [|x l IH]; simpl; [constructor|].
  now apply insert_desc_sorted.
Qed.

Lemma insert_desc_stable (s : Q) x l :
  filter (fun p => Qeq_bool (snd p) s) (insert_desc x l)
  = filter (fun p => Qeq_bool (snd p) s) (x :: l).
Proof.
  induction l as [|y l IH]; [reflexivity|].
  cbn [insert_desc]. destruct (Qle_bool (snd y) (snd x)) eqn:E; [reflexivity|].
  cbn [filter] in *. rewrite IH.
  destruct (Qeq_bool (snd x) s) eqn:Ex, (Qeq_bool (snd y) s) eqn:Ey;
    try reflexivity.
  exfalso. apply Qeq_bool_iff in Ex, Ey.
  assert (H : Qle_bool (snd y) (snd x) = true)
    by (apply Qle_bool_iff; rewrite Ex, Ey; apply Qle_refl).
  congruence.
Qed.

(** Sorting a score map's items on the score, highest first, rearranges the
    items, puts no item before one with a higher score, and keeps items with
    equal scores in the order the dict had them. *)
Theorem sorted_desc_is_stable_descending (l : list (string * Q)) :
  Permutation (sorted_desc l) l
  /\ StronglySorted score_ge (sorted_desc l)
  /\ forall s : Q,
       filter (fun p => Qeq_bool (snd p) s) (sorted_desc l)
       = filter (fun p => Qeq_bool (snd p) s) l.
Proof.
  split; [apply sorted_desc_Permutation|]. split; [apply sorted_desc_sorted|].
  intros s. induction l as [|x l IH]; [reflexivity|].
  cbn [sorted_desc fold_right]. fold (sorted_desc l).
  rewrite insert_desc_stable. cbn [filter]. now rewrite IH.
Qed.

Lemma StronglySorted_app_order {A : Type} (R : A -> A -> Prop) (l1 l2 : list A) :
  StronglySorted R (l1 ++ l2) ->
  forall a b, In a l1 -> In b l2 -> R a b.
Proof.
  induction l1 as [|x l1 IH]; simpl; [tauto|].
  intros Hs a b [<-|Ha] Hb.
  - apply StronglySorted_inv in Hs. destruct Hs as [_ Hall].
    rewrite Forall_forall in Hall. apply Hall, in_or_app. now right.
  - apply StronglySorted_inv in Hs. destruct Hs as [Hs _]. now apply (IH Hs).
Qed.

Lemma in_firstn {A : Type} (n : nat) (l : list A) x : In x (firstn n l) -> In x l.
Proof.
  intros H. rewrite <- (firstn_skipn n l). apply in_or_app. now left.
Qed.

(** The top [k] document ids of a score map: there are [k] of them, or all
    the documents when the map has fewer; each is a document of the map, none
    twice; and no document left out has a higher score than a document kept. *)
Theorem top_k_doc_ids_are_the_best (top_k : nat) (doc_scores : scores) :
  length (top_k_doc_ids top_k doc_scores) = Nat.min top_k (Dict.len doc_scores)
  /\ (forall doc_id, In doc_id (top_k_doc_ids top_k doc_scores) ->
                     In doc_id (Dict.keys doc_scores))
  /\ (NoDup (Dict.keys doc_scores) ->
      NoDup (top_k_doc_ids top_k doc_scores)
      /\ forall kept left_out s s',
           In kept (top_k_doc_ids top_k doc_scores) ->
           ~ In left_out (top_k_doc_ids top_k doc_scores) ->
           Dict.get kept doc_scores = Some s ->
           Dict.get left_out doc_scores = Some s' ->
           (s' <= s)%Q).
Proof.
  unfold top_k_doc_ids, Dict.items, Dict.len, Dict.keys.
  pose proof (sorted_desc_Permutation doc_scores) as Hperm.
  pose proof (sorted_desc_sorted doc_scores) as Hsorted.
  split; [|split].
  - rewrite length_map, length_firstn, (Permutation_length Hperm). reflexivity.
  - intros doc_id Hin. apply in_map_iff in Hin.
    destruct Hin as ([id s] & <- & Hin). apply in_firstn in Hin.
    apply (Permutation_in _ Hperm) in Hin. now apply (in_map fst) in Hin.
  - intros Hnd.
    assert (Hnd' : NoDup (map fst (sorted_desc doc_scores))).
    { eapply Permutation_NoDup; [|exact Hnd].
      apply Permutation_map, Permutation_sym, Hperm. }
    rewrite <- (firstn_skipn top_k (sorted_desc doc_scores)) in Hnd', Hsorted.
    rewrite map_app in Hnd'. split.
    + exact (NoDup_app_remove_r _ _ Hnd').
    + intros kept left_out s s' Hkept Hleft Hs Hs'.
      apply in_map_iff in Hkept. destruct Hkept as ([id s0] & Hid & Hkept).
      simpl in Hid. subst id.
      assert (Hs0 : s0 = s).
      { pose proof (in_firstn _ _ _ Hkept) as H.
        apply (Permutation_in _ Hperm) in H.
        apply (DictFacts.in_items_get _ _ _ Hnd) in H. congruence. }
      subst s0.
      assert (Hsuffix : In (left_out, s') (skipn top_k (sorted_desc doc_scores))).
      { apply DictFacts.get_Some_in in Hs'.
        apply (Permutation_in _ (Permutation_sym Hperm)) in Hs'.
        rewrite <- (firstn_skipn top_k (sorted_desc doc_scores)) in Hs'.
        apply in_app_or in Hs'. destruct Hs' as [H|H]; [|exact H].
        exfalso. apply Hleft. apply in_map_iff. now exists (left_out, s'). }
      exact (StronglySorted_app_order _ _ _ Hsorted _ _ Hkept Hsuffix).
Qed.

(* ================================================================= *)
(** ** The judge rate and the bounds of a mean *)

Lemma nr_labeled_docs_le (judged : Dict.t Z) (ids : list string) :
  nr_labeled_docs judged ids <= length ids.
Proof.
  unfold nr_labeled_docs. induction ids as [|id ids IH]; simpl; [lia|].
  destruct (Dict.contains id judged); simpl; lia.
Qed.

Lemma nr_labeled_docs_count (judged : Dict.t Z) (ids : list string) :
  nr_labeled_docs judged ids
  = length (filter (fun doc_id => Dict.contains doc_id judged) ids).
Proof.
  unfold nr_labeled_docs.
  induction (filter (fun doc_id => Dict.contains doc_id judged) ids) as [|x l IH];
    simpl; [reflexivity|]. now rewrite IH.
Qed.

Lemma fraction_in_unit (n m : nat) :
  n <= m -> m <> 0 ->
  (0 <= Z.of_nat n # Pos.of_nat m)%Q /\ (Z.of_nat n # Pos.of_nat m <= 1)%Q.
Proof.
  intros Hle Hm. unfold Qle. simpl.
  assert (Hpos : Z.pos (Pos.of_nat m) = Z.of_nat m).
  { rewrite <- (Nat2Pos.id m Hm) at 2. now rewrite positive_nat_Z. }
  rewrite Hpos. lia.
Qed.

Lemma judge_rate_loop_spec top_k (qrels : Dict.t (Dict.t Z)) todo acc rates :
  judge_rate_loop top_k qrels todo acc = Ok rates ->
  exists added,
    rates = acc ++ added
    /\ Forall (fun r => (0 <= r)%Q /\ (r <= 1)%Q) added
    /\ length added
       = length (filter (fun item =>
                           negb (length (top_k_doc_ids top_k (snd item)) =? 0))
                        todo).
Proof.
  revert acc. induction todo as [|[qid doc_scores] todo IH]; intros acc; simpl.
  - intros [= <-]. exists []. rewrite app_nil_r. repeat split. constructor.
  - destruct (length (top_k_doc_ids top_k doc_scores) =? 0) eqn:E; simpl.
    + apply IH.
    + unfold bind. destruct (getitem qrels qid) as [judged|]; [|discriminate].
      intros H. destruct (IH _ H) as (added & -> & Hall & Hlen).
      eexists (_ :: added). rewrite <- app_assoc. split; [reflexivity|].
      split; [|simpl; now rewrite Hlen].
      constructor; [|exact Hall].
      apply fraction_in_unit; [apply nr_labeled_docs_le|].
      now apply Nat.eqb_neq.
Qed.

Lemma judge_rate_loop_key_error top_k (qrels : Dict.t (Dict.t Z)) todo acc key :
  judge_rate_loop top_k qrels todo acc = KeyError key ->
  exists doc_scores,
    In (key, doc_scores) todo
    /\ top_k_doc_ids top_k doc_scores <> []
    /\ Dict.get key qrels = None.
Proof.
  revert acc. induction todo as [|[qid doc_scores] todo IH]; intros acc; simpl.
  - discriminate.
  - destruct (length (top_k_doc_ids top_k doc_scores) =? 0) eqn:E.
    + intros H. destruct (IH _ H) as (ds & Hin & Hne & Hq). eauto.
    + unfold bind, getitem. destruct (Dict.get qid qrels) as [judged|] eqn:Eq.
      * intros H. destruct (IH _ H) as (ds & Hin & Hne & Hq). eauto.
      * intros [= <-]. exists doc_scores. split; [now left|]. split; [|exact Eq].
        intros Hnil. rewrite Hnil in E. discriminate.
Qed.

Lemma top_k_doc_ids_empty top_k : top_k_doc_ids top_k Dict.empty = [].
Proof. unfold top_k_doc_ids. simpl. now rewrite firstn_nil. Qed.

Lemma judge_rate_loop_total top_k (qrels : Dict.t (Dict.t Z)) todo acc :
  (forall qid doc_scores, In (qid, doc_scores) todo ->
                          doc_scores <> Dict.empty -> In qid (Dict.keys qrels)) ->
  exists rates, judge_rate_loop top_k qrels todo acc = Ok rates.
Proof.
  intros Hall.
  destruct (judge_rate_loop top_k qrels todo acc) as [rates|key] eqn:E; [eauto|].
  exfalso. apply judge_rate_loop_key_error in E.
  destruct E as (doc_scores & Hin & Hne & Hq).
  apply DictFacts.get_None in Hq. apply Hq, (Hall key doc_scores Hin).
  intros ->. apply Hne, top_k_doc_ids_empty.
Qed.

Lemma top_k_empty_iff (doc_scores : scores) :
  (length (top_k_doc_ids TOP_K doc_scores) =? 0) = (length doc_scores =? 0).
Proof.
  unfold top_k_doc_ids, Dict.items, TOP_K.
  rewrite length_map, length_firstn,
    (Permutation_length (sorted_desc_Permutation doc_scores)).
  destruct doc_scores; reflexivity.
Qed.

(** Every judge rate is a fraction between 0 and 1; there is one per query
    that has at least one candidate, the queries without candidates being
    skipped before any division; and the loop can only stop on a query id,
    with candidates, that [qrels] does not hold. *)
Theorem judge_rates_are_fractions (qrels : Dict.t (Dict.t Z)) (responses : ranking) :
  (forall rates,
     judge_rate_per_query qrels responses = Ok rates ->
     Forall (fun r => (0 <= r)%Q /\ (r <= 1)%Q) rates
     /\ length rates
        = length (filter (fun item => negb (Dict.len (snd item) =? 0))
                         (Dict.items responses)))
  /\ (forall key,
        judge_rate_per_query qrels responses = KeyError key ->
        Dict.get key qrels = None
        /\ exists doc_scores,
             In (key, doc_scores) (Dict.items responses)
             /\ doc_scores <> Dict.empty).
Proof.
  unfold judge_rate_per_query. split.
  - intros rates H. apply judge_rate_loop_spec in H.
    destruct H as (added & -> & Hall & Hlen). simpl. split; [exact Hall|].
    rewrite Hlen. f_equal. apply filter_ext. intros item.
    now rewrite top_k_empty_iff.
  - intros key H. apply judge_rate_loop_key_error in H.
    destruct H as (doc_scores & Hin & Hne & Hq). split; [exact Hq|].
    exists doc_scores. split; [exact Hin|]. intros ->.
    apply Hne, top_k_doc_ids_empty.
Qed.

(** In the notebook's pipeline the judge rate never raises: for the
    first-stage result of the filtered queries, and for the reranked result
    built from it, every query id read from [qrels] is there. *)
Theorem judge_rate_never_fails_in_pipeline
  (qrels_raw : list Qrel.t) (queries_raw : list Query.t)
  (es_client : Elasticsearch) (index_name : string) (size batch_size : Z)
  (reranking_model : CrossEncoder) (corpus : list Doc.t) :
  (exists rates,
     judge_rate_per_query
       (snd (download_queries_and_qrels qrels_raw queries_raw))
       (fst (retrieve (fst (download_queries_and_qrels qrels_raw queries_raw))
                      es_client index_name size batch_size))
     = Ok rates)
  /\ (forall reranked,
        results_after_reranking reranking_model
          (fst (download_queries_and_qrels qrels_raw queries_raw)) corpus
          (fst (retrieve (fst (download_queries_and_qrels qrels_raw queries_raw))
                         es_client index_name size batch_size))
        = Ok reranked ->
        exists rates,
          judge_rate_per_query
            (snd (download_queries_and_qrels qrels_raw queries_raw)) reranked
          = Ok rates).
Proof.
  assert (Hkeys : forall qid,
            In qid (Dict.keys
                      (fst (retrieve (fst (download_queries_and_qrels qrels_raw
                                                                      queries_raw))
                                     es_client index_name size batch_size))) ->
            In qid (Dict.keys (snd (download_queries_and_qrels qrels_raw
                                                               queries_raw)))).
  { intros qid Hin. apply retrieve_keys_are_query_ids in Hin.
    apply in_map_iff in Hin. destruct Hin as (q & <- & Hq).
    simpl in Hq. apply filter_In in Hq. destruct Hq as [_ Hq].
    now apply DictFacts.contains_in. }
  split.
  - apply judge_rate_loop_total. intros qid doc_scores Hin _. apply Hkeys.
    change qid with (fst (qid, doc_scores)). now apply in_map.
  - intros reranked Hrun. apply judge_rate_loop_total.
    intros qid doc_scores Hin _. apply Hkeys.
    rewrite <- (reranked_keys _ _ _ _ _ (retrieve_keys_NoDup _ _ _ _ _) Hrun).
    change qid with (fst (qid, doc_scores)). now apply in_map.
Qed.

Lemma sum_bounds (l : list R) (lo hi : R) :
  (forall x, In x l -> (lo <= x <= hi)%R) ->
  (INR (length l) * lo <= fold_right Rplus 0 l <= INR (length l) * hi)%R.
Proof.
  induction l as [|x l IH]; intros Hall.
  - simpl. lra.
  - cbn [fold_right length]. rewrite S_INR.
    specialize (IH (fun y Hy => Hall y (or_intror Hy))).
    pose proof (Hall x (or_introl eq_refl)). lra.
Qed.

Lemma np_mean_bounds (l : list R) (lo hi : R) :
  l <> [] ->
  (forall x, In x l -> (lo <= x <= hi)%R) ->
  (lo <= np_mean l <= hi)%R.
Proof.
  intros Hne Hall. unfold np_mean. rewrite fold_left_Rplus, Rplus_0_l.
  pose proof (sum_bounds l lo hi Hall) as Hsum.
  assert (Hn : (0 < INR (length l))%R).
  { apply lt_0_INR. destruct l; [congruence|simpl; lia]. }
  assert (Hinv : (0 < / INR (length l))%R) by (now apply Rinv_0_lt_compat).
  unfold Rdiv. split.
  - replace lo with (INR (length l) * lo * / INR (length l))%R by (field; lra).
    apply Rmult_le_compat_r; lra.
  - replace hi with (INR (length l) * hi * / INR (length l))%R by (field; lra).
    apply Rmult_le_compat_r; lra.
Qed.

(** The judge rate that is printed lies between 0 and 100 percent whenever
    at least one query has a candidate. *)
Theorem judge_rate_percent_bounds (qrels : Dict.t (Dict.t Z)) (responses : ranking)
  (rates : list Q) :
  judge_rate_per_query qrels responses = Ok rates ->
  rates <> [] ->
  (0 <= judge_rate_percent rates <= 100)%R.
Proof.
  intros Hrun Hne. unfold judge_rate_per_query in Hrun.
  apply judge_rate_loop_spec in Hrun. destruct Hrun as (added & -> & Hall & _).
  simpl in *. unfold judge_rate_percent.
  assert (Hmean : (0 <= np_mean (map Q2R added) <= 1)%R).
  { apply np_mean_bounds.
    - destruct added; [congruence|discriminate].
    - intros x Hx. apply in_map_iff in Hx. destruct Hx as (r & <- & Hr).
      rewrite Forall_forall in Hall. destruct (Hall r Hr) as [H0 H1].
      apply Qle_Rle in H0, H1. rewrite RMicromega.Q2R_0 in H0.
      rewrite RMicromega.Q2R_1 in H1. lra. }
  lra.
Qed.

Lemma judge_rate_percent_bounds_witness :
  judge_rate_per_query [("q1", [("d1", 1%Z)])] Sample.bm25_responses
  = Ok [1 # 2]
  /\ [1 # 2] <> @nil Q
  /\ (0 <= judge_rate_percent [1 # 2] <= 100)%R.
Proof.
  split; [reflexivity|]. split; [discriminate|].
  apply (judge_rate_percent_bounds [("q1", [("d1", 1%Z)])]
                                   Sample.bm25_responses [1 # 2] eq_refl).
  discriminate.
Defined.
